(** * Verification of the furigana annotation engine of obsidian-auto-furigana

    Shallow embedding of [src/furiganaLivePreviewMode.ts] (fence and
    inline-code scanning, caret buffers, [buildDecorations], the view
    plugin's [update]), of [src/skipOption.ts], and of the Reading Mode
    postprocessor ([src/unnamed/part_002]).

    Strings of the editor are JavaScript strings: lists of UTF-16 code
    units, each a [Z].  Offsets are code-unit offsets, as in CodeMirror. *)

From Stdlib Require Import String Ascii.
From Stdlib Require Import List ZArith Bool Lia.
From Stdlib Require Strings.Byte.
Import ListNotations.
Open Scope Z_scope.

(** ** JavaScript strings *)

Definition jstr := list Z.

(** [count_while p l]: length of the longest prefix of [l] satisfying [p]. *)
Fixpoint count_while (p : Z -> bool) (l : jstr) : nat :=
  match l with
  | [] => O
  | c :: l' => if p c then S (count_while p l') else O
  end.

Fixpoint drop_while (p : Z -> bool) (l : jstr) : jstr :=
  match l with
  | [] => []
  | c :: l' => if p c then drop_while p l' else l
  end.

(** JavaScript's [WhiteSpace] and [LineTerminator] code units: the set used
    by [String.prototype.trim], [trimStart] and the regex class [\s]. *)
Definition is_js_ws (c : Z) : bool :=
  ((9 <=? c) && (c <=? 13)) || (c =? 32) || (c =? 160) || (c =? 5760)
  || ((8192 <=? c) && (c <=? 8202)) || (c =? 8232) || (c =? 8233)
  || (c =? 8239) || (c =? 8287) || (c =? 12288) || (c =? 65279).

Definition trimStart (t : jstr) : jstr := drop_while is_js_ws t.

(** [s.trim().length > 0]: the string has a non-whitespace code unit. *)
Definition trim_nonempty (t : jstr) : bool := existsb (fun c => negb (is_js_ws c)) t.

Definition BACKTICK : Z := 96.
Definition TILDE : Z := 126.

(** ** lineTogglesFence

    [/^(```+|~~~+)(\s|$)/.test(text.trimStart())].  The greedy run can only
    be followed by [\s] or the end when the whole leading run is taken, so
    the regex holds iff the leading run of backticks (or tildes) has length
    at least 3 and is followed by whitespace or the end of the line. *)
Definition lineTogglesFence (text : jstr) : bool :=
  let t := trimStart text in
  match t with
  | [] => false
  | c :: _ =>
      if (c =? BACKTICK) || (c =? TILDE) then
        let n := count_while (Z.eqb c) t in
        (3 <=? n)%nat &&
        match skipn n t with
        | [] => true
        | d :: _ => is_js_ws d
        end
      else false
  end.

(** ** inlineBacktickRanges *)

Definition is_tick (s : jstr) (i : nat) : bool :=
  match nth_error s i with
  | Some c => c =? BACKTICK
  | None => false
  end.

(** [runLen] after [let runLen = 1; while (i + runLen < len && s[i + runLen] === '`') runLen++]
    when [s[i]] is a backtick: the length of the backtick run starting at [i]. *)
Definition tick_run (s : jstr) (i : nat) : nat := count_while (Z.eqb BACKTICK) (skipn i s).

(** The inner [while (i < len)] loop, looking for a closing run of exactly
    [openerLen] backticks; returns [closeStart], or [None] when [i]
    reaches [len].  [fuel] bounds the iterations (each one advances [i]). *)
Fixpoint find_close (fuel : nat) (s : jstr) (openerLen i : nat) : option nat :=
  match fuel with
  | O => None
  | S fuel' =>
      if (i <? length s)%nat then
        if is_tick s i then
          let runLen := tick_run s i in
          if (runLen =? openerLen)%nat then Some i
          else find_close fuel' s openerLen (i + runLen)
        else find_close fuel' s openerLen (i + 1)
      else None
  end.

(** The outer [while (i < len)] loop.  When no closing run is found the
    inner loop has moved [i] to [len], so the outer loop ends and nothing is
    pushed for the opener. *)
Fixpoint scan_ticks (fuel : nat) (s : jstr) (i : nat) : list (nat * nat) :=
  match fuel with
  | O => []
  | S fuel' =>
      if (i <? length s)%nat then
        if is_tick s i then
          let openerLen := tick_run s i in
          match find_close (length s) s openerLen (i + openerLen) with
          | Some closeStart =>
              (i, closeStart + openerLen)%nat :: scan_ticks fuel' s (closeStart + openerLen)
          | None => []
          end
        else scan_ticks fuel' s (i + 1)
      else []
  end.

Definition inlineBacktickRanges (lineText : jstr) : list (nat * nat) :=
  scan_ticks (S (length lineText)) lineText 0.

(** ** overlaps and caretBuffer *)

Definition overlaps (aFrom aTo bFrom bTo : Z) : bool := (aFrom <? bTo) && (bFrom <? aTo).

Definition caretBuffer (pos size : Z) : Z * Z := (pos - size, pos + size).

(** ** Character classes *)

Definition in_range (lo hi c : Z) : bool := (lo <=? c) && (c <=? hi).

(** [AUTO_QUICK = /[\u3040-\u30FF\u31F0-\u31FF\u3400-\u4DBF\u4E00-\u9FFF]/]. *)
Definition is_auto_quick_char (c : Z) : bool :=
  in_range 12352 12543 c || in_range 12784 12799 c
  || in_range 13312 19903 c || in_range 19968 40959 c.

Definition AUTO_QUICK_test (t : jstr) : bool := existsb is_auto_quick_char t.

(** The class of [/^[\u3040-\u30FFー]+$/] in [RubyWidget.toDOM]
    (hiragana and katakana blocks; [ー] is U+30FC, inside the range). *)
Definition is_kana (c : Z) : bool := in_range 12352 12543 c || (c =? 12540).

Definition is_all_kana (k : jstr) : bool :=
  match k with
  | [] => false
  | _ => forallb is_kana k
  end.

(** Characters (code points) of a string: a high surrogate followed by a
    low surrogate is one character. *)
Definition is_high_surrogate (c : Z) : bool := in_range 55296 56319 c.
Definition is_low_surrogate (c : Z) : bool := in_range 56320 57343 c.

Fixpoint chars (l : jstr) : list jstr :=
  match l with
  | [] => []
  | h :: t =>
      match t with
      | l2 :: r =>
          if is_high_surrogate h && is_low_surrogate l2 then [h; l2] :: chars r
          else [h] :: chars t
      | [] => [[h]]
      end
  end.

(** ** Manual and automatic patterns (regex.ts)

    [getManualRegex] and [getAutoRegex] live in [regex.ts], which is not
    part of the sources; they are modelled below from the spec. *)

Inductive NotationStyle := Curly | Square | NoNotation.

(** Modelled from the spec: the bracket pair of a [NotationStyle]
    ([regex.ts] is missing); [disabled] recognises no manual span. *)
Definition brackets (style : NotationStyle) : option (Z * Z) :=
  match style with
  | Curly => Some (123, 125)
  | Square => Some (91, 93)
  | NoNotation => None
  end.

Definition PIPE : Z := 124.

Fixpoint split_on (sep : Z) (l : jstr) : list jstr :=
  match l with
  | [] => [[]]
  | c :: l' =>
      if c =? sep then [] :: split_on sep l'
      else match split_on sep l' with
           | [] => [[c]]
           | w :: ws => (c :: w) :: ws
           end
  end.

(** Modelled from the spec (§3 ManualMatch, §4.1): a base of one or more
    characters and one or more pipe-separated, non-empty, phonetic reading
    segments; with more than one segment their number must equal the
    character count of the base. *)
Definition valid_notation (base : jstr) (readings : list jstr) : bool :=
  negb (List.length base =? 0)%nat
  && negb (List.length readings =? 0)%nat
  && forallb is_all_kana readings
  && ((List.length readings =? 1)%nat || (List.length readings =? List.length (chars base))%nat).

(** Modelled from the spec: the manual notation starting at the head of [l]:
    [op base|r1|...|rk cl], the content holding no bracket.  Returns the
    span length, the base and the reading segments. *)
Definition parse_notation (op cl : Z) (l : jstr) : option (nat * jstr * list jstr) :=
  match l with
  | c :: rest =>
      if c =? op then
        let k := count_while (fun d => negb (d =? op) && negb (d =? cl)) rest in
        match nth_error rest k with
        | Some d =>
            if d =? cl then
              match split_on PIPE (firstn k rest) with
              | base :: readings =>
                  if valid_notation base readings then Some (S (S k), base, readings) else None
              | [] => None
              end
            else None
        | None => None
        end
      else None
  | [] => None
  end.

(** Modelled from the spec: [text.matchAll(manual)] with leftmost,
    non-overlapping matching, resuming after each consumed span. *)
Fixpoint manual_scan (op cl : Z) (fuel i : nat) (l : jstr) : list (nat * jstr) :=
  match fuel, l with
  | O, _ => []
  | _, [] => []
  | S f, _ :: l' =>
      match parse_notation op cl l with
      | Some (len, _, _) => (i, firstn len l) :: manual_scan op cl f (i + len) (skipn len l)
      | None => manual_scan op cl f (S i) l'
      end
  end.

Definition manual_matches (style : NotationStyle) (text : jstr) : list (nat * jstr) :=
  match brackets style with
  | Some (op, cl) => manual_scan op cl (List.length text) 0 text
  | None => []
  end.

(** Modelled from the spec (§4.4 AutoMatch): [text.matchAll(auto)] finds the
    maximal runs of annotable (Japanese) code units. *)
Fixpoint auto_scan (fuel i : nat) (l : jstr) : list (nat * jstr) :=
  match fuel, l with
  | O, _ => []
  | _, [] => []
  | S f, c :: l' =>
      if is_auto_quick_char c then
        let n := count_while is_auto_quick_char l in
        (i, firstn n l) :: auto_scan f (i + n) (skipn n l)
      else auto_scan f (S i) l'
  end.

Definition auto_matches (text : jstr) : list (nat * jstr) :=
  auto_scan (List.length text) 0 text.

(** ** buildDecorations *)

(** A selection range of [view.state.selection.ranges]. *)
Record SelRange := { anchor : Z; head : Z }.

(** The parts of an [EditorView] that [buildDecorations] reads: the
    document as its lines, [view.viewport], the selection and
    [view.composing]. *)
Record EditorView := {
  doc_lines : list jstr;
  visFrom : Z;
  visTo : Z;
  ranges : list SelRange;
  composing : bool
}.

(** A decoration handed to [builder.add]: [absFrom], [absTo] and the text
    of its [RubyWidget]. *)
Definition Deco := (Z * Z * jstr)%type.

Definition NEWLINE : Z := 10.

(** [view.state.doc.toString()]: the lines joined with newlines. *)
Fixpoint doc_string (ls : list jstr) : jstr :=
  match ls with
  | [] => []
  | [t] => t
  | t :: rest => t ++ NEWLINE :: doc_string rest
  end.

Definition zlen (t : jstr) : Z := Z.of_nat (List.length t).

(** [view.state.doc.lineAt(pos).number]: the first line whose end is at or
    after [pos] (lines are numbered from 1, [from] is the offset of the
    current line). *)
Fixpoint lineAt_number (ls : list jstr) (from : Z) (n : nat) (pos : Z) : nat :=
  match ls with
  | [] => n
  | [_] => n
  | t :: rest =>
      if pos <=? from + zlen t then n
      else lineAt_number rest (from + zlen t + 1) (S n) pos
  end.

(** [doc.line(n).from]. *)
Definition line_from (ls : list jstr) (n : nat) : Z :=
  fold_left (fun acc t => acc + zlen t + 1) (firstn (n - 1) ls) 0.

(** The loop [for (n = 1; n < firstVisibleLine; n++) if (lineTogglesFence(..)) insideFence = !insideFence]
    run over the first [k] lines. *)
Definition fence_before (ls : list jstr) (k : nat) : bool :=
  fold_left (fun b t => if lineTogglesFence t then negb b else b) (firstn k ls) false.

(** [noDecor]: the two buffer zones of every selection range. *)
Definition noDecor (sel : list SelRange) (comp : bool) : list (Z * Z) :=
  flat_map (fun r =>
    let size := if comp then 2 else 1 in
    let '(a1, a2) := caretBuffer (anchor r) size in
    let '(h1, h2) := caretBuffer (head r) size in
    [(Z.min a1 a2, Z.max a1 a2); (Z.min h1 h2, Z.max h1 h2)]) sel.

Definition hitsCode (codeSpans : list (nat * nat)) (fromRel toRel : nat) : bool :=
  existsb (fun '(a, b) => overlaps (Z.of_nat fromRel) (Z.of_nat toRel) (Z.of_nat a) (Z.of_nat b))
    codeSpans.

(** The body of both [for (const m of text.matchAll(..))] loops. *)
Definition add_match (zones : list (Z * Z)) (codeSpans : list (nat * nat)) (lineFrom : Z)
    (m : nat * jstr) : list Deco :=
  let '(relFrom, m0) := m in
  match m0 with
  | [] => []
  | _ =>
      let relTo := (relFrom + List.length m0)%nat in
      if hitsCode codeSpans relFrom relTo then []
      else
        let absFrom := lineFrom + Z.of_nat relFrom in
        let absTo := lineFrom + Z.of_nat relTo in
        if existsb (fun '(a, b) => overlaps absFrom absTo a b) zones then []
        else [(absFrom, absTo, m0)]
  end.

(** One line outside a fence with Japanese text: manual overrides, then
    automatic coverage. *)
Definition line_decorations (style : NotationStyle) (zones : list (Z * Z)) (lineFrom : Z)
    (text : jstr) : list Deco :=
  let codeSpans := inlineBacktickRanges text in
  flat_map (add_match zones codeSpans lineFrom) (manual_matches style text)
  ++ flat_map (add_match zones codeSpans lineFrom) (auto_matches text).

(** The walk over the visible lines, from line [n] (text [ls]'s head) at
    offset [from] with fence state [fence].  Each visited line is reported
    with its number, its text, the fence state used for it and the
    decorations it adds. *)
Fixpoint walk (style : NotationStyle) (zones : list (Z * Z)) (vTo : Z)
    (ls : list jstr) (n : nat) (from : Z) (fence : bool)
    : list (nat * jstr * bool * list Deco) :=
  match ls with
  | [] => []
  | text :: rest =>
      if from <=? vTo then
        let fence' := if lineTogglesFence text then negb fence else fence in
        let ds := if negb fence' && AUTO_QUICK_test text
                  then line_decorations style zones from text else [] in
        (n, text, fence', ds)
          :: (if from + zlen text >=? vTo then []
              else walk style zones vTo rest (S n) (from + zlen text + 1) fence')
      else []
  end.

Definition visited_lines (style : NotationStyle) (zones : list (Z * Z)) (view : EditorView)
    : list (nat * jstr * bool * list Deco) :=
  let ls := doc_lines view in
  let first := lineAt_number ls 0 1 (visFrom view) in
  walk style zones (visTo view) (skipn (first - 1) ls) first (line_from ls first)
    (fence_before ls (first - 1)).

(** [buildDecorations(view, style)] with the buffer zones given: the
    sequence of ranges passed to [builder.add], in order. *)
Definition build_with_zones (style : NotationStyle) (zones : list (Z * Z)) (view : EditorView)
    : list Deco :=
  if AUTO_QUICK_test (doc_string (doc_lines view)) then
    flat_map (fun '(_, _, _, ds) => ds) (visited_lines style zones view)
  else [].

Definition buildDecorations (view : EditorView) (style : NotationStyle) : list Deco :=
  build_with_zones style (noDecor (ranges view) (composing view)) view.

(** The decorations a rebuild would produce if no selection endpoint were
    near: the candidates that the caret buffers filter. *)
Definition decoration_candidates (view : EditorView) (style : NotationStyle) : list Deco :=
  build_with_zones style [] view.

(** [RangeSetBuilder] of [@codemirror/state], for the ranges
    [buildDecorations] adds: all are [Decoration.replace] marks with
    [inclusive: false] and [block: false], so they share [startSide]
    ([Side.NonIncStart]) and [endSide] ([Side.NonIncEnd]).  The builder is a
    stack of layers, each remembering the [from] and [to] of the last range
    it took.  [add(from, to)] ([addInner]) on a layer: when [from] is before
    the layer's last [to] ([diff < 0]; at [from] equal to the last [to] the
    tie-break [startSide - endSide] is positive), it throws if [from] is also
    before the layer's last [from] ("Ranges must be added sorted by `from`
    position and `startSide`") and otherwise passes the range on to the next
    layer, created empty when missing; else the layer takes the range.
    [None] is the exception. *)
Fixpoint builder_add (layers : list (Z * Z)) (from to : Z) : option (list (Z * Z)) :=
  match layers with
  | [] => Some [(from, to)]
  | (lastFrom, lastTo) :: next =>
      if from <? lastTo then
        if from <? lastFrom then None
        else option_map (cons (lastFrom, lastTo)) (builder_add next from to)
      else Some ((from, to) :: next)
  end.

(** The [builder.add] calls of a rebuild, in order, from a fresh builder. *)
Fixpoint builder_run (layers : list (Z * Z)) (ds : list Deco) : option (list (Z * Z)) :=
  match ds with
  | [] => Some layers
  | (f, t, _) :: rest =>
      match builder_add layers f t with
      | Some layers' => builder_run layers' rest
      | None => None
      end
  end.

(** [buildDecorations(view, style)] with the builder's exception: the
    [DecorationSet] of [builder.finish()], holding every added decoration,
    or [None] when a [builder.add] throws (nothing in [buildDecorations]
    catches it). *)
Definition decorationSet (view : EditorView) (style : NotationStyle) : option (list Deco) :=
  let ds := buildDecorations view style in
  match builder_run [] ds with
  | Some _ => Some ds
  | None => None
  end.

(** The decorations the Live Preview plugin shows after a rebuild.  The
    rebuild runs in the plugin's constructor or [update]; CodeMirror catches
    an exception thrown there ([logException]), deactivates the plugin and
    takes no decorations from it. *)
Definition live_decorations (view : EditorView) (style : NotationStyle) : list Deco :=
  match decorationSet view style with
  | Some ds => ds
  | None => []
  end.

(** ** RubyWidget.toDOM *)

(** A tokenizer token: surface form and reading. *)
Record Token := { surface : jstr; reading : jstr }.

(** A segment of [getFuriganaSegmentsSync]: parallel arrays [kanji] and
    [furi]. *)
Record Segment := { kanji : list jstr; furi : list jstr }.

(** Children of a [<ruby>] element: base text and [<rt>] readings. *)
Inductive RubyChild :=
| RbText (t : jstr)
| Rt (t : jstr).

(** Nodes appended to the widget's [<span>]. *)
Inductive OutNode :=
| OText (t : jstr)
| ORuby (children : list RubyChild).

(** Modelled from the spec: [makeRuby] (furiganaUtils.ts is missing).  Each
    base chunk becomes a base text followed by its reading when that reading
    is present and non-empty (§4.3; README: [<ruby>漢<rt>かん</rt>字<rt>じ</rt></ruby>]). *)
Fixpoint ruby_children (ks fs : list jstr) : list RubyChild :=
  match ks with
  | [] => []
  | k :: ks' =>
      RbText k
        :: match fs with
           | r :: _ => match r with [] => [] | _ => [Rt r] end
           | [] => []
           end
        ++ ruby_children ks' (tl fs)
  end.

Definition makeRuby (ks fs : list jstr) : OutNode := ORuby (ruby_children ks fs).

(** Modelled from the spec: the manual notation of a widget text, in either
    bracket style, spanning the whole text. *)
Definition parse_manual_any (m : jstr) : option (jstr * list jstr) :=
  match parse_notation 123 125 m with
  | Some (len, base, rs) => if (len =? List.length m)%nat then Some (base, rs) else None
  | None =>
      match parse_notation 91 93 m with
      | Some (len, base, rs) => if (len =? List.length m)%nat then Some (base, rs) else None
      | None => None
      end
  end.

Section Widget.

(** The tokenizer: [None] when it is unavailable. *)
Variable tokenize : jstr -> option (list Token).

(** Modelled from the spec (§4.2): [getFuriganaSegmentsSync].  A manual
    notation with one reading aligns the whole base to it; with several
    readings each base character aligns with one of them.  Otherwise each
    token becomes one segment; an unavailable tokenizer yields the text
    itself with no reading. *)
Definition getFuriganaSegmentsSync (m : jstr) : list Segment :=
  match parse_manual_any m with
  | Some (base, [r]) => [{| kanji := [base]; furi := [r] |}]
  | Some (base, rs) => [{| kanji := chars base; furi := rs |}]
  | None =>
      match tokenize m with
      | Some toks => map (fun t => {| kanji := [surface t]; furi := [reading t] |}) toks
      | None => [{| kanji := [m]; furi := [] |}]
      end
  end.

(** [seg.kanji.every(k => /^[\u3040-\u30FFー]+$/.test(k))]. *)
Definition allKana (seg : Segment) : bool := forallb is_all_kana (kanji seg).

(** [RubyWidget.toDOM]: the children of the returned [<span>]. *)
Definition toDOM (text : jstr) : list OutNode :=
  map (fun seg =>
         if allKana seg then OText (concat (kanji seg))
         else makeRuby (kanji seg) (furi seg))
    (getFuriganaSegmentsSync text).

End Widget.

(** Removing every [<rt>] node and reading the remaining text in order. *)
Definition strip_child (c : RubyChild) : jstr :=
  match c with
  | RbText t => t
  | Rt _ => []
  end.

Definition strip_node (n : OutNode) : jstr :=
  match n with
  | OText t => t
  | ORuby cs => concat (map strip_child cs)
  end.

Definition strip_readings (ns : list OutNode) : jstr := concat (map strip_node ns).

(** ** skipOption.ts *)

Open Scope string_scope.

(** Frontmatter values as parsed from YAML. *)
Inductive FMValue :=
| FBool (b : bool)
| FStr (s : string)
| FNum (z : Z)
| FNull
| FOther.

Definition Frontmatter := list (string * FMValue).

Definition KEY : string := "auto-furigana".

(** [fm[KEY]]. *)
Fixpoint fm_get (k : string) (fm : Frontmatter) : option FMValue :=
  match fm with
  | [] => None
  | (k', v) :: rest => if String.eqb k k' then Some v else fm_get k rest
  end.

(** [OFF.has(v)] for [OFF = new Set([false, 'false', 'off', 'disabled'])]
    (SameValueZero: [undefined] is not in the set). *)
Definition OFF_has (v : option FMValue) : bool :=
  match v with
  | Some (FBool false) => true
  | Some (FStr s) => String.eqb s "false" || String.eqb s "off" || String.eqb s "disabled"
  | _ => false
  end.

(** [app.metadataCache.getCache(path)?.frontmatter]. *)
Definition MetadataCache := string -> option Frontmatter.

Definition shouldSkipByPath (cache : MetadataCache) (path : string) : bool :=
  match cache path with
  | None => false
  | Some fm => OFF_has (fm_get KEY fm)
  end.

(** ** Rendered DOM and the Reading Mode postprocessor *)

Local Set Warnings "-register-all".

Inductive Node :=
| NText (v : jstr)
| NElem (tag : string) (children : list Node)
| NOther.

Definition lower_ascii (a : Ascii.ascii) : Ascii.ascii :=
  let n := Ascii.nat_of_ascii a in
  if (Nat.leb 65 n && Nat.leb n 90)%bool then Ascii.ascii_of_nat (n + 32) else a.

(** [toLowerCase] on the (ASCII) tag names. *)
Fixpoint lower (s : string) : string :=
  match s with
  | EmptyString => EmptyString
  | String a s' => String (lower_ascii a) (lower s')
  end.

Definition isSkippableElement (tag : string) : bool :=
  let t := lower tag in
  String.eqb t "code" || String.eqb t "pre" || String.eqb t "script"
  || String.eqb t "style" || String.eqb t "ruby".

(** [el.closest('ruby')] for an element whose tag, then ancestors' tags
    (nearest first), are [tags]. *)
Definition closest_ruby (tags : list string) : bool :=
  existsb (fun t => String.eqb (lower t) "ruby") tags.

(** [collectTextNodes(root, out)]: [ancs] are the tags of [root]'s
    ancestors, nearest first.  Each collected text node is returned with the
    tags of all its ancestors. *)
Fixpoint collectTextNodes (ancs : list string) (root : Node) {struct root}
    : list (list string * jstr) :=
  match root with
  | NText v => if trim_nonempty v then [(ancs, v)] else []
  | NOther => []
  | NElem tag kids =>
      if isSkippableElement tag then []
      else if closest_ruby (tag :: ancs) then []
      else
        (fix go (ks : list Node) : list (list string * jstr) :=
           match ks with
           | [] => []
           | k :: ks' => (collectTextNodes (tag :: ancs) k ++ go ks')%list
           end) kids
  end.

(** [TAGS = 'p, h1, h2, h3, h4, h5, h6, ol, ul, table']. *)
Definition is_block_tag (tag : string) : bool :=
  existsb (String.eqb (lower tag)) ["p"; "h1"; "h2"; "h3"; "h4"; "h5"; "h6"; "ol"; "ul"; "table"].

(** A node and its descendants in document order, each with its ancestors. *)
Fixpoint descendants (ancs : list string) (n : Node) {struct n} : list (list string * Node) :=
  match n with
  | NElem tag kids =>
      (ancs, n)
        :: (fix go (ks : list Node) : list (list string * Node) :=
              match ks with
              | [] => []
              | k :: ks' => (descendants (tag :: ancs) k ++ go ks')%list
              end) kids
  | _ => [(ancs, n)]
  end.

(** [el.querySelectorAll(TAGS)]: the matching descendants of [el]. *)
Definition querySelectorAll_TAGS (ancs : list string) (el : Node) : list (list string * Node) :=
  match el with
  | NElem tag kids =>
      filter (fun '(_, n) => match n with NElem t _ => is_block_tag t | _ => false end)
        (flat_map (descendants (tag :: ancs)) kids)
  | _ => []
  end.

Fixpoint textContent (n : Node) : jstr :=
  match n with
  | NText v => v
  | NOther => []
  | NElem _ kids => concat (map textContent kids)
  end.

Record PluginSettings := {
  readingMode : bool;
  editingMode : bool;
  notationStyle : NotationStyle
}.

(** [processBlock]'s scan: the text nodes it converts.  The quick check uses
    the automatic pattern's character class (modelled from the spec, as
    [auto_matches]). *)
Definition processBlock_textNodes (blk : list string * Node) : list (list string * jstr) :=
  let '(ancs, n) := blk in
  if AUTO_QUICK_test (textContent n) then collectTextNodes ancs n else [].

(** The postprocessor returned by [createReadingModePostprocessor], run on
    [el] (with ancestors [ancs]) for the note at [sourcePath]: the blocks it
    goes on to process, in order ([[]] when it returns early). *)
Definition readingModeBlocks (settings : PluginSettings) (cache : MetadataCache)
    (sourcePath : string) (ancs : list string) (el : Node) : list (list string * Node) :=
  if negb (readingMode settings) then []
  else if shouldSkipByPath cache sourcePath then []
  else querySelectorAll_TAGS ancs el.

Close Scope string_scope.

(** ** The view plugin *)

(** A transaction's [userEvent] annotation; [isUserEvent(e)] holds for [e]
    itself and for its refinements ["e.xxx"]. *)
Record Transaction := { userEvent : option string }.

Definition isUserEvent (t : Transaction) (ev : string) : bool :=
  match userEvent t with
  | Some e => String.eqb e ev || String.prefix (ev ++ ".") e
  | None => false
  end.

(** Editor views are objects: the plugin instance and the [ViewUpdate] hold
    references to them; [ViewStore] gives each reference's current state. *)
Definition ViewRef := nat.
Definition ViewStore := ViewRef -> EditorView.

Record ViewUpdate := {
  u_view : ViewRef;
  docChanged : bool;
  selectionSet : bool;
  viewportChanged : bool;
  transactions : list Transaction
}.

(** The instance of the class in [viewPlugin(notationStyle)]. *)
Record PluginInstance := {
  view : ViewRef;
  decorations : list Deco
}.

(** The constructor. *)
Definition plugin_create (style : NotationStyle) (store : ViewStore) (v : ViewRef) : PluginInstance :=
  {| view := v; decorations := buildDecorations (store v) style |}.

(** [update(u)]: both [u.view.composing] and [this.view.composing] are read
    from the current state of the referenced views. *)
Definition plugin_update (style : NotationStyle) (store : ViewStore) (u : ViewUpdate)
    (p : PluginInstance) : PluginInstance :=
  if docChanged u || selectionSet u || viewportChanged u
     || existsb (fun t => isUserEvent t "input" || isUserEvent t "delete") (transactions u)
     || negb (Bool.eqb (composing (store (u_view u))) (composing (store (view p))))
  then {| view := view p; decorations := buildDecorations (store (view p)) style |}
  else p.

(** CodeMirror hands a plugin instance the updates of its own view. *)
Definition host_update (style : NotationStyle) (store : ViewStore) (docCh selSet vpCh : bool)
    (trs : list Transaction) (p : PluginInstance) : PluginInstance :=
  plugin_update style store
    {| u_view := view p; docChanged := docCh; selectionSet := selSet;
       viewportChanged := vpCh; transactions := trs |} p.

(** [d] overlaps none of [zones]. *)
Definition clear_of (zones : list (Z * Z)) (d : Deco) : bool :=
  let '(f, t, _) := d in
  forallb (fun '(a, b) => negb (overlaps f t a b)) zones.

Definition walk_decos (w : list (nat * jstr * bool * list Deco)) : list Deco :=
  flat_map (fun '(_, _, _, ds) => ds) w.

(** ** Concrete inputs *)

(** 今 日 漢 字 か ん じ な. *)
Definition c_kon : Z := 20170.
Definition c_nichi : Z := 26085.
Definition c_kan : Z := 28450.
Definition c_ji : Z := 23383.
Definition c_ka : Z := 12363.
Definition c_n : Z := 12435.
Definition c_zi : Z := 12376.
Definition c_na : Z := 12394.

Definition fence_line : jstr := [BACKTICK; BACKTICK; BACKTICK].
Definition kanji_line : jstr := [c_kan; c_ji].

(** A note whose second line lies in a fence opened on its first line; the
    viewport starts on the second line. *)
Definition fenced_view : EditorView :=
  {| doc_lines := [fence_line; kanji_line; fence_line; kanji_line];
     visFrom := 4; visTo := 12;
     ranges := [{| anchor := 12; head := 12 |}]; composing := false |}.

(** [{漢字|かんじ}]. *)
Definition manual_ok : jstr := [123; c_kan; c_ji; PIPE; c_ka; c_n; c_zi; 125].

(** [かな]. *)
Definition kana_word : jstr := [c_ka; c_na].

(** A tokenizer returning its input as one token with no reading. *)
Definition tok_whole (t : jstr) : option (list Token) :=
  Some [{| surface := t; reading := [] |}].

(** A tokenizer returning its input as one token read [カナ]. *)
Definition tok_katakana (t : jstr) : option (list Token) :=
  Some [{| surface := t; reading := [12459; 12490] |}].

(** [{漢字|か|ん|じ}]: three reading segments for a two-character base. *)
Definition manual_mismatch : jstr :=
  [123; c_kan; c_ji; PIPE; c_ka; PIPE; c_n; PIPE; c_zi; 125].

(** The code units of an ASCII string. *)
Fixpoint units (s : string) : jstr :=
  match s with
  | EmptyString => []
  | String a s' => Z.of_nat (Ascii.nat_of_ascii a) :: units s'
  end.

(** [今日{漢字|かんじ}], then an empty line holding the caret. *)
Definition c3_view : EditorView :=
  {| doc_lines := [[c_kon; c_nichi] ++ manual_ok; []];
     visFrom := 0; visTo := 11;
     ranges := [{| anchor := 11; head := 11 |}]; composing := false |}.

(** The same note with the caret at offset 1, inside [今日]. *)
Definition c6_caret_view : EditorView :=
  {| doc_lines := [[c_kon; c_nichi] ++ manual_ok; []];
     visFrom := 0; visTo := 11;
     ranges := [{| anchor := 1; head := 1 |}]; composing := false |}.

(** A note switched off in its frontmatter. *)
Definition skipped_note_lines : list jstr :=
  [units "---"; units "auto-furigana: off"; units "---"; kanji_line].

Definition skipped_cache : MetadataCache :=
  fun _ => Some [(KEY, FStr "off"%string)].

Definition settings_on : PluginSettings :=
  {| readingMode := true; editingMode := true; notationStyle := Curly |}.

Definition skipped_store : ViewStore :=
  fun _ => {| doc_lines := skipped_note_lines; visFrom := 0; visTo := 29;
              ranges := [{| anchor := 0; head := 0 |}]; composing := false |}.

(** The same note rendered for Reading Mode. *)
Definition skipped_rendered : Node :=
  NElem "div" [NElem "p" [NText kanji_line]].

(** [漢字`かんじ]: a lone backtick. *)
Definition lone_tick_line : jstr := [c_kan; c_ji; BACKTICK; c_ka; c_n; c_zi].

(** [`a` `b]: a closed span, then a lone backtick. *)
Definition closed_then_lone_line : jstr := units "`a` `b".


Definition lone_tick_view : EditorView :=
  {| doc_lines := [lone_tick_line]; visFrom := 0; visTo := 6;
     ranges := [{| anchor := 0; head := 0 |}]; composing := false |}.

(** [漢字], two empty lines, the caret on the second line; composition
    starts without any other change. *)
Definition ime_view (comp : bool) : EditorView :=
  {| doc_lines := [kanji_line; []; []]; visFrom := 0; visTo := 4;
     ranges := [{| anchor := 3; head := 3 |}]; composing := comp |}.

Definition ime_before : ViewStore := fun _ => ime_view false.
Definition ime_after : ViewStore := fun _ => ime_view true.

(** A paragraph inside a [<pre>] of the rendered note. *)
Definition pre_paragraph : Node :=
  NElem "div" [NElem "pre" [NElem "p" [NText kanji_line]]].

Definition no_frontmatter : MetadataCache := fun _ => None.

(** Induction over rendered nodes, with a hypothesis for every child. *)
Fixpoint Node_ind' (P : Node -> Prop) (ft : forall v, P (NText v))
    (fe : forall tag kids, Forall P kids -> P (NElem tag kids)) (fo : P NOther) (n : Node) : P n :=
  match n with
  | NText v => ft v
  | NOther => fo
  | NElem tag kids =>
      fe tag kids
        ((fix go (ks : list Node) : Forall P ks :=
            match ks with
            | [] => Forall_nil P
            | k :: ks' => Forall_cons k (Node_ind' P ft fe fo k) (go ks')
            end) kids)
  end.

Fixpoint ordered_ranges (lo : nat) (rs : list (nat * nat)) : Prop :=
  match rs with
  | [] => True
  | (a, b) :: rs' => (lo <= a < b)%nat /\ ordered_ranges b rs'
  end.

(** Where a decoration added for a line sits in that line. *)
Definition deco_in_line (text : jstr) (lineFrom : Z) (d : Deco) : Prop :=
  exists rel m, d = (lineFrom + Z.of_nat rel, lineFrom + Z.of_nat (rel + List.length m), m)
    /\ m <> [] /\ firstn (List.length m) (skipn rel text) = m
    /\ hitsCode (inlineBacktickRanges text) rel (rel + List.length m) = false.

(** A workspace leaf: [leaf?.view?.editor?.cm] and [leaf?.view?.file?.path ?? null]. *)
Record Leaf := { leaf_cm : option ViewRef; leaf_path : option string }.

(** [editorViewToPath(app, ev)]: [iterateAllLeaves] visits the leaves in order;
    every leaf whose editor is [ev] overwrites [out]. *)
Definition editorViewToPath (leaves : list Leaf) (ev : ViewRef) : option string :=
  fold_left (fun out leaf =>
               match leaf_cm leaf with
               | Some cm => if Nat.eqb cm ev then leaf_path leaf else out
               | None => out
               end) leaves None.

(** [shouldSkipForEditorView(app, ev)]: [p ? shouldSkipByPath(app, p) : false];
    the empty path is falsy. *)
Definition shouldSkipForEditorView (cache : MetadataCache) (leaves : list Leaf) (ev : ViewRef) : bool :=
  match editorViewToPath leaves ev with
  | Some p => if String.eqb p EmptyString then false else shouldSkipByPath cache p
  | None => false
  end.

(** The values of all text nodes under a node, in document order. *)
Fixpoint all_texts (n : Node) : list jstr :=
  match n with
  | NText v => [v]
  | NOther => []
  | NElem _ kids => concat (map all_texts kids)
  end.

(** No element of the subtree is one [isSkippableElement] refuses. *)
Fixpoint no_skippable (n : Node) : bool :=
  match n with
  | NElem tag kids => negb (isSkippableElement tag) && forallb no_skippable kids
  | _ => true
  end.

Inductive subseq {A : Type} : list A -> list A -> Prop :=
| subseq_nil : subseq [] []
| subseq_skip x l1 l2 : subseq l1 l2 -> subseq l1 (x :: l2)
| subseq_take x l1 l2 : subseq l1 l2 -> subseq (x :: l1) (x :: l2).

Definition DEFAULT_SETTINGS : PluginSettings :=
  {| readingMode := true; editingMode := false; notationStyle := Curly |}.

Record SettingsPatch := {
  p_readingMode : option bool;
  p_editingMode : option bool;
  p_notationStyle : option NotationStyle
}.

Definition assign (s : PluginSettings) (p : SettingsPatch) : PluginSettings :=
  {| readingMode := match p_readingMode p with Some b => b | None => readingMode s end;
     editingMode := match p_editingMode p with Some b => b | None => editingMode s end;
     notationStyle := match p_notationStyle p with Some st => st | None => notationStyle s end |}.

Definition loadSettings (data : option SettingsPatch) : PluginSettings :=
  match data with
  | Some d => assign DEFAULT_SETTINGS d
  | None => DEFAULT_SETTINGS
  end.

Definition settings_data (s : PluginSettings) : SettingsPatch :=
  {| p_readingMode := Some (readingMode s); p_editingMode := Some (editingMode s);
     p_notationStyle := Some (notationStyle s) |}.

Definition NotationStyle_eqb (a b : NotationStyle) : bool :=
  match a, b with
  | Curly, Curly | Square, Square | NoNotation, NoNotation => true
  | _, _ => false
  end.

Inductive JsArg := JApp | JStyle (st : NotationStyle) | JUndefined.

Inductive LPExtension := NoExtension | LivePreview (notationStyleArg : JsArg).

Definition viewPlugin_call (args : list JsArg) : LPExtension :=
  match args with
  | a :: _ => LivePreview a
  | [] => LivePreview JUndefined
  end.

Definition lp_extension (s : PluginSettings) : LPExtension :=
  if editingMode s then viewPlugin_call [JApp; JStyle (notationStyle s)] else NoExtension.

Record SettingsEffect := { reconfigured : LPExtension; refreshReading : bool }.

Definition applySettingsChange (prev next : PluginSettings) : SettingsEffect :=
  {| reconfigured := lp_extension next;
     refreshReading := negb (Bool.eqb (readingMode prev) (readingMode next))
                       || negb (NotationStyle_eqb (notationStyle prev) (notationStyle next)) |}.

Definition saveSettings (s : PluginSettings) (patch : SettingsPatch)
    : PluginSettings * SettingsPatch * SettingsEffect :=
  let next := assign s patch in
  (next, settings_data next, applySettingsChange s next).

(** A digit of [Number.prototype.toString(16)]: [0-9a-f]. *)
Definition hex_digit (d : nat) : ascii :=
  ascii_of_nat (if Nat.ltb d 10 then 48 + d else 87 + d).

(** [n.toString(16)]: the base-16 digits of [n], most significant first. *)
Fixpoint hex_digits (fuel n : nat) : string :=
  match fuel with
  | O => EmptyString
  | S f =>
      if Nat.ltb n 16 then String (hex_digit n) EmptyString
      else append (hex_digits f (Nat.div n 16)) (String (hex_digit (Nat.modulo n 16)) EmptyString)
  end.

Definition toString16 (n : nat) : string := hex_digits (S n) n.

Fixpoint str_repeat (c : ascii) (k : nat) : string :=
  match k with
  | O => EmptyString
  | S k' => String c (str_repeat c k')
  end.

(** [s.padStart(target, pad)] for a one-character [pad]. *)
Definition padStart (target : nat) (pad : ascii) (s : string) : string :=
  append (str_repeat pad (target - String.length s)) s.

(** The hex loop of [sha256Hex]:
    [for (const b of bytes) hex += b.toString(16).padStart(2, '0')]. *)
Definition sha256Hex_of (bytes : list Byte.byte) : string :=
  fold_left (fun hex b => append hex (padStart 2 "0"%char (toString16 (Byte.to_nat b)))) bytes EmptyString.

(** The lowercase hex encoding of a byte array, two digits per byte (what
    Node's [digest('hex')] writes into the manifest). *)
Definition hex_encode (bytes : list Byte.byte) : string :=
  fold_right (fun b acc =>
                String (hex_digit (Nat.div (Byte.to_nat b) 16))
                  (String (hex_digit (Nat.modulo (Byte.to_nat b) 16)) acc)) EmptyString bytes.

Definition is_lower_hex (c : ascii) : bool :=
  let k := nat_of_ascii c in (Nat.leb 48 k && Nat.leb k 57) || (Nat.leb 97 k && Nat.leb k 102).

(** ** Dictionary installer ([src/kuromojiDictInstaller.ts]) *)

Definition ArrayBuffer := list Byte.byte.

(** Parsed JSON values.  Numbers of the manifest are byte counts: integers. *)
Inductive JVal : Type :=
| JStr (s : string)
| JNum (n : Z)
| JBool (b : bool)
| JNull
| JArr (items : list JVal)
| JObj (fields : list (string * JVal)).

(** [String(i)] for an array index. *)
Fixpoint dec_aux (fuel n : nat) (acc : string) : string :=
  match fuel with
  | O => acc
  | S f =>
      let acc' := String (ascii_of_nat (48 + Nat.modulo n 10)) acc in
      if Nat.ltb n 10 then acc' else dec_aux f (Nat.div n 10) acc'
  end.

Definition index_key (i : nat) : string := dec_aux (S i) i EmptyString.

(** [Object.entries(v)] of an object or array (the fields of a parsed
    object have distinct keys). *)
Definition entries (v : JVal) : list (string * JVal) :=
  match v with
  | JObj fs => fs
  | JArr l => combine (map index_key (seq 0 (List.length l))) l
  | _ => []
  end.

Fixpoint get_field (fs : list (string * JVal)) (k : string) : option JVal :=
  match fs with
  | [] => None
  | (k', v) :: fs' => if String.eqb k k' then Some v else get_field fs' k
  end.

(** [v[k]]: [None] is [undefined]. *)
Definition prop (v : JVal) (k : string) : option JVal := get_field (entries v) k.

(** [!!v] *)
Definition js_truthy (v : JVal) : bool :=
  match v with
  | JStr s => negb (String.eqb s EmptyString)
  | JNum n => negb (Z.eqb n 0)
  | JBool b => b
  | JNull => false
  | JArr _ | JObj _ => true
  end.

(** [typeof v === 'object'] *)
Definition js_typeof_object (v : JVal) : bool :=
  match v with
  | JNull | JArr _ | JObj _ => true
  | _ => false
  end.

Definition is_js_string (v : option JVal) : bool :=
  match v with Some (JStr _) => true | _ => false end.

Definition is_js_number (v : option JVal) : bool :=
  match v with Some (JNum _) => true | _ => false end.

Definition isValidManifest (m : JVal) : bool :=
  js_truthy m && js_typeof_object m &&
  forallb (fun '(k, v) =>
             String.eqb k "sources"%string
             || negb (js_truthy v && js_typeof_object v)
             || (is_js_string (prop v "sha256"%string) && is_js_number (prop v "bytes"%string)))
          (entries m).

(** [Array.prototype.sort] with the default comparison (code-unit order). *)
Fixpoint insert_sorted (s : string) (l : list string) : list string :=
  match l with
  | [] => [s]
  | x :: l' => if String.leb s x then s :: l else x :: insert_sorted s l'
  end.

Definition sort_strings (l : list string) : list string := fold_right insert_sorted [] l.

(** [Object.keys(manifestJson).filter(k => k !== 'sources').sort()] *)
Definition names (m : JVal) : list string :=
  sort_strings (filter (fun k => negb (String.eqb k "sources"%string)) (map fst (entries m))).

Fixpoint replace_backslashes (s : string) : string :=
  match s with
  | EmptyString => EmptyString
  | String c s' => String (if Ascii.eqb c "\"%char then "/"%char else c) (replace_backslashes s')
  end.

(** [dictDir] of [ensureDictInstalled]: [configDir] is [undefined] or [null]
    when [None]. *)
Definition dict_dir (configDir : option string) (id : string) : string :=
  let cfg := match configDir with Some c => c | None => ".obsidian"%string end in
  append (replace_backslashes (append cfg (append "/plugins/" id))) "/dict".

Definition rel_path (dir name : string) : string := append dir (append "/" name).

(** [base.endsWith('/') ? base + fileName : base + '/' + fileName] *)
Definition ends_with_slash (s : string) : bool :=
  match rev (list_ascii_of_string s) with
  | "/"%char :: _ => true
  | _ => false
  end.

Definition join_url (base fileName : string) : string :=
  if ends_with_slash base then append base fileName else append base (append "/" fileName).

Definition PER_BASE_RETRIES : nat := 2.
Definition RETRY_BACKOFF_MS : nat := 800.

Inductive FetchErr : Type :=
| RequestFailed (k : nat) (url : string)   (** the rejection of the [k]-th request *)
| AllSourcesFailed.

(** What the installer does to the outside world. *)
Inductive Event : Type :=
| EvMkdir (dir : string)
| EvSleep (ms : nat)
| EvGet (url : string)
| EvWrite (rel : string) (data : ArrayBuffer).

Inductive InstallErr : Type :=
| MkdirFailed
| SourcesNotArray                 (** [(sources ?? []).filter] is not a function *)
| FetchError (e : FetchErr)
| EntryTypeError (name : string)  (** [want.sha256] of [null] *)
| ChecksumMismatch (name : string)
| SizeMismatch (name : string)
| WriteFailed (name : string).

Inductive Outcome : Type :=
| Returned
| Thrown (e : InstallErr).

Section Installer.

(** [crypto.subtle.digest('SHA-256', .)] *)
Variable digest : ArrayBuffer -> ArrayBuffer.
(** [requestUrlWithTimeout(url, .)] as the [k]-th request of the run:
    [None] when it rejects (HTTP error, missing body or timeout). *)
Variable request : nat -> string -> option ArrayBuffer.
(** Whether [adapter.writeBinary(rel, .)] resolves. *)
Variable write_ok : string -> bool.

Definition sha256Hex (buf : ArrayBuffer) : string := sha256Hex_of (digest buf).

(** [buf.byteLength === want.bytes] *)
Definition size_ok (buf : ArrayBuffer) (want : JVal) : bool :=
  match prop want "bytes"%string with
  | Some (JNum n) => Z.eqb (Z.of_nat (List.length buf)) n
  | _ => false
  end.

(** [sha256Hex(buf) === want.sha256] *)
Definition sha_ok (buf : ArrayBuffer) (want : JVal) : bool :=
  match prop want "sha256"%string with
  | Some (JStr s) => String.eqb (sha256Hex buf) s
  | _ => false
  end.

(** One step of the [toInstall] loop: [tryReadBinary] gives [None] for a
    missing or unreadable file; [want.bytes] of [null] throws, which the
    [catch] turns into a reinstall. *)
Definition needs_install (read : string -> option ArrayBuffer) (m : JVal) (dir name : string) : bool :=
  match read (rel_path dir name) with
  | None => true
  | Some buf =>
      match prop m name with
      | None | Some JNull => true
      | Some want => negb (size_ok buf want && sha_ok buf want)
      end
  end.

(** [(manifestJson.sources ?? []).filter(s => typeof s === 'string' && s.length > 0)];
    [None] when [.filter] throws. *)
Definition bases_of (m : JVal) : option (list string) :=
  match prop m "sources"%string with
  | None | Some JNull => Some []
  | Some (JArr l) =>
      Some (flat_map (fun v => match v with
                               | JStr s => if String.eqb s EmptyString then [] else [s]
                               | _ => []
                               end) l)
  | Some _ => None
  end.

(** The [attempt] loop of [fetchWithFallback] for one [url], from [attempt]
    with [remaining] attempts left; [k] counts the requests made. *)
Fixpoint attempt_loop (url : string) (attempt remaining k : nat) (lastErr : option FetchErr)
  : list Event * nat * (option FetchErr + ArrayBuffer)%type :=
  match remaining with
  | O => ([], k, inl lastErr)
  | S r =>
      let wait := if Nat.ltb 0 attempt
                  then [EvSleep (RETRY_BACKOFF_MS * 2 ^ (attempt - 1))%nat] else [] in
      match request k url with
      | Some data => (wait ++ [EvGet url], S k, inr data)
      | None =>
          let '(ev, k', res) := attempt_loop url (S attempt) r (S k) (Some (RequestFailed k url)) in
          (wait ++ EvGet url :: ev, k', res)
      end
  end.

Fixpoint base_loop (fileName : string) (bases : list string) (k : nat) (lastErr : option FetchErr)
  : list Event * nat * (option FetchErr + ArrayBuffer)%type :=
  match bases with
  | [] => ([], k, inl lastErr)
  | base :: bs =>
      let '(ev, k1, res) := attempt_loop (join_url base fileName) 0 (S PER_BASE_RETRIES) k lastErr in
      match res with
      | inr data => (ev, k1, inr data)
      | inl le =>
          let '(ev2, k2, res2) := base_loop fileName bs k1 le in
          (ev ++ ev2, k2, res2)
      end
  end.

(** [fetchWithFallback]: [throw lastErr ?? new Error('All sources failed')]. *)
Definition fetchWithFallback (fileName : string) (bases : list string) (k : nat)
  : list Event * nat * (FetchErr + ArrayBuffer)%type :=
  let '(ev, k', res) := base_loop fileName bases k None in
  (ev, k', match res with
           | inr data => inr data
           | inl (Some e) => inl e
           | inl None => inl AllSourcesFailed
           end).

(** The install loop: fetch, checksum, size, write; the first failure is
    rethrown. *)
Fixpoint install_loop (m : JVal) (dir : string) (bases toInstall : list string) (k : nat)
  : list Event * nat * Outcome :=
  match toInstall with
  | [] => ([], k, Returned)
  | name :: rest =>
      let '(ev, k1, res) := fetchWithFallback name bases k in
      match res with
      | inl e => (ev, k1, Thrown (FetchError e))
      | inr data =>
          match prop m name with
          | None | Some JNull => (ev, k1, Thrown (EntryTypeError name))
          | Some want =>
              if negb (sha_ok data want) then (ev, k1, Thrown (ChecksumMismatch name))
              else if negb (size_ok data want) then (ev, k1, Thrown (SizeMismatch name))
              else if negb (write_ok (rel_path dir name)) then (ev, k1, Thrown (WriteFailed name))
              else
                let '(ev2, k2, out) := install_loop m dir bases rest k1 in
                (ev ++ EvWrite (rel_path dir name) data :: ev2, k2, out)
          end
      end
  end.

(** [ensureDictInstalled] for the bundled manifest [m]: [dir_exists] is the
    result of [adapter.exists(dictDir)] ([None] when it rejects), [mkdir_ok]
    whether [adapter.mkdir] resolves, [read] what [tryReadBinary] returns. *)
Definition ensureDictInstalled (m : JVal) (configDir : option string) (id : string)
  (dir_exists : option bool) (mkdir_ok : bool) (read : string -> option ArrayBuffer) (k : nat)
  : list Event * nat * Outcome :=
  if negb (isValidManifest m) then ([], k, Returned) else
  let dir := dict_dir configDir id in
  match dir_exists with
  | None => ([], k, Thrown MkdirFailed)
  | Some ex =>
      let mk := if ex then [] else [EvMkdir dir] in
      if negb (ex || mkdir_ok) then (mk, k, Thrown MkdirFailed) else
      match filter (needs_install read m dir) (names m) with
      | [] => (mk, k, Returned)
      | toInstall =>
          match bases_of m with
          | None => (mk, k, Thrown SourcesNotArray)
          | Some [] => (mk, k, Returned)
          | Some bases =>
              let '(ev, k', out) := install_loop m dir bases toInstall k in
              (mk ++ ev, k', out)
          end
      end
  end.

(** The files as the adapter sees them after the run's writes. *)
Definition after_writes (read : string -> option ArrayBuffer) (ev : list Event) : string -> option ArrayBuffer :=
  fold_left (fun r e => match e with
                        | EvWrite rel d => fun p => if String.eqb p rel then Some d else r p
                        | _ => r
                        end) ev read.

(** ** The manifest generator ([src/scripts/make-dict-manifest.mjs]) *)

(** [loadExistingOverrides]: [existing] is the parsed previous manifest,
    [None] when it cannot be read or parsed. *)
Definition loadExistingOverrides (existing : option JVal) : option JVal :=
  match existing with
  | Some json =>
      match prop json "_overrides"%string with
      | Some o => if js_typeof_object o then Some o else None
      | None => None
      end
  | None => None
  end.

(** [{ sha256: digest('hex'), bytes: buf.byteLength }] *)
Definition manifest_entry (buf : ArrayBuffer) : JVal :=
  JObj [("sha256"%string, JStr (hex_encode (digest buf)));
        ("bytes"%string, JNum (Z.of_nat (List.length buf)))].

(** [main] on the listed [.dat.gz] files (name and contents, in the order of
    [listDictFiles]); [None] when it throws for an empty list. *)
Definition make_manifest (base : string) (existing : option JVal) (files : list (string * ArrayBuffer))
  : option JVal :=
  match files with
  | [] => None
  | _ =>
      let overrides := loadExistingOverrides existing in
      Some (JObj ([("sources"%string, JArr [JStr base])]
                  ++ match overrides with
                     | Some o => if js_truthy o then [("_overrides"%string, o)] else []
                     | None => []
                     end
                  ++ map (fun '(name, buf) => (name, manifest_entry buf)) files))
  end.

End Installer.

Definition attempt_step (url : string) (i : nat) : list Event :=
  (if Nat.ltb 0 i then [EvSleep (RETRY_BACKOFF_MS * 2 ^ (i - 1))%nat] else []) ++ [EvGet url].

Definition attempt_events (url : string) (a n : nat) : list Event :=
  flat_map (attempt_step url) (seq a n).

(** The requests [fetchWithFallback] may make, in order: every base,
    [1 + PER_BASE_RETRIES] times. *)
Definition schedule (fileName : string) (bases : list string) : list string :=
  flat_map (fun b => repeat (join_url b fileName) (S PER_BASE_RETRIES)) bases.

(** Its full event log when every request fails. *)
Definition full_events (fileName : string) (bases : list string) : list Event :=
  flat_map (fun b => attempt_events (join_url b fileName) 0 (S PER_BASE_RETRIES)) bases.

Definition gets (ev : list Event) : list string :=
  flat_map (fun e => match e with EvGet u => [u] | _ => [] end) ev.

Definition is_inl {A B : Type} (x : (A + B)%type) : bool :=
  match x with inl _ => true | inr _ => false end.

(** What a write of the install loop satisfies. *)
Definition verified_write (digest : ArrayBuffer -> ArrayBuffer) (m : JVal) (dir : string) (names : list string) (rel : string) (data : ArrayBuffer) : Prop :=
  exists name want, In name names /\ rel = rel_path dir name /\ prop m name = Some want
    /\ want <> JNull /\ sha_ok digest data want = true /\ size_ok data want = true.

Definition dict_bytes : ArrayBuffer := [Byte.x41].
Definition id_digest (b : ArrayBuffer) : ArrayBuffer := b.
Definition mirror_bases : list string := ["https://a.example"; "https://b.example/"]%string.
Definition flaky_request (k : nat) (url : string) : option ArrayBuffer :=
  if Nat.leb 4 k then Some dict_bytes else None.
Definition ok_request (k : nat) (url : string) : option ArrayBuffer := Some dict_bytes.
Definition always_write (rel : string) : bool := true.
Definition one_file_manifest : JVal :=
  JObj [("sources"%string, JArr [JStr "https://a.example"]);
        ("base.dat.gz"%string, JObj [("sha256"%string, JStr "41"); ("bytes"%string, JNum 1)])].
Definition no_files (p : string) : option ArrayBuffer := None.
Definition plugin_dict_dir : string := dict_dir None "auto-furigana".
Definition installed_files (p : string) : option ArrayBuffer :=
  if String.eqb p (rel_path plugin_dict_dir "base.dat.gz") then Some dict_bytes else None.
Definition mirror_log : list Event :=
  [EvGet "https://a.example/base.dat.gz"; EvSleep 800; EvGet "https://a.example/base.dat.gz";
   EvSleep 1600; EvGet "https://a.example/base.dat.gz";
   EvGet "https://b.example/base.dat.gz"; EvSleep 800; EvGet "https://b.example/base.dat.gz"].
Definition install_log : list Event :=
  [EvMkdir plugin_dict_dir; EvGet "https://a.example/base.dat.gz";
   EvWrite (rel_path plugin_dict_dir "base.dat.gz") dict_bytes].
Definition previous_manifest : option JVal := Some (JObj [("_overrides"%string, JObj [])]).

(** ** Properties *)

Lemma existsb_overlaps_clear (zones : list (Z * Z)) (f t : Z) (m0 : jstr) :
  existsb (fun '(a, b) => overlaps f t a b) zones = negb (clear_of zones (f, t, m0)).
Proof.
  unfold clear_of. induction zones as [|[a b] zs IH]; simpl; [reflexivity|].
  rewrite IH. destruct (overlaps f t a b); reflexivity.
Qed.

Lemma add_match_zones (zones : list (Z * Z)) (cs : list (nat * nat)) (from : Z)
    (m : nat * jstr) (d : Deco) :
  In d (add_match zones cs from m) <-> In d (add_match [] cs from m) /\ clear_of zones d = true.
Proof.
  destruct m as [relFrom m0]. unfold add_match.
  destruct m0 as [|c m0']; [simpl; tauto|].
  destruct (hitsCode _ _ _); [simpl; tauto|].
  set (F := from + Z.of_nat relFrom).
  set (T := from + Z.of_nat (relFrom + List.length (c :: m0'))).
  change (existsb (fun '(a, b) => overlaps F T a b) []) with false. cbv iota.
  destruct (existsb (fun '(a, b) => overlaps F T a b) zones) eqn:E;
    rewrite (existsb_overlaps_clear zones F T (c :: m0')) in E; cbn [In].
  - split; [tauto|]. intros [[<-|[]] H]. rewrite H in E. discriminate.
  - apply negb_false_iff in E. split.
    + intros [<-|[]]. auto.
    + intros [[<-|[]] _]. auto.
Qed.

Lemma flat_map_add_match_zones zones cs from (ms : list (nat * jstr)) d :
  In d (flat_map (add_match zones cs from) ms)
  <-> In d (flat_map (add_match [] cs from) ms) /\ clear_of zones d = true.
Proof.
  rewrite !in_flat_map. split.
  - intros [m [Hm Hd]]. apply add_match_zones in Hd as [Hd Hc]. eauto.
  - intros [[m [Hm Hd]] Hc]. exists m. split; auto. apply add_match_zones. auto.
Qed.

Lemma line_decorations_zones style zones from text d :
  In d (line_decorations style zones from text)
  <-> In d (line_decorations style [] from text) /\ clear_of zones d = true.
Proof.
  unfold line_decorations. rewrite !in_app_iff.
  rewrite (flat_map_add_match_zones zones _ _ (manual_matches style text)).
  rewrite (flat_map_add_match_zones zones _ _ (auto_matches text)). tauto.
Qed.

Lemma walk_zones style zones vTo ls n from fence d :
  In d (walk_decos (walk style zones vTo ls n from fence))
  <-> In d (walk_decos (walk style [] vTo ls n from fence)) /\ clear_of zones d = true.
Proof.
  revert n from fence. induction ls as [|text rest IH]; intros n from fence; simpl.
  - tauto.
  - destruct (from <=? vTo); simpl; [|tauto].
    rewrite !in_app_iff.
    destruct (negb _ && AUTO_QUICK_test text).
    + rewrite line_decorations_zones.
      destruct (from + zlen text >=? vTo); simpl; [tauto|].
      rewrite IH. tauto.
    + destruct (from + zlen text >=? vTo); simpl; [tauto|].
      rewrite IH. tauto.
Qed.

Lemma build_with_zones_iff style zones view d :
  In d (build_with_zones style zones view)
  <-> In d (build_with_zones style [] view) /\ clear_of zones d = true.
Proof.
  unfold build_with_zones. destruct (AUTO_QUICK_test _); [|simpl; tauto].
  apply walk_zones.
Qed.

Lemma noDecor_clear (sel : list SelRange) (comp : bool) (d : Deco) :
  clear_of (noDecor sel comp) d = true
  <-> forall r, In r sel -> forall p, p = anchor r \/ p = head r ->
        let w := if comp then 2 else 1 in
        overlaps (fst (fst d)) (snd (fst d)) (p - w) (p + w) = false.
Proof.
  destruct d as [[f t] m0]. unfold clear_of, noDecor. simpl.
  rewrite forallb_forall. setoid_rewrite in_flat_map.
  assert (Hmin : forall p, Z.min (p - (if comp then 2 else 1)) (p + (if comp then 2 else 1))
                           = p - (if comp then 2 else 1)) by (intro; destruct comp; lia).
  assert (Hmax : forall p, Z.max (p - (if comp then 2 else 1)) (p + (if comp then 2 else 1))
                           = p + (if comp then 2 else 1)) by (intro; destruct comp; lia).
  split.
  - intros H r Hr p Hp.
    destruct Hp as [->| ->].
    + specialize (H (Z.min (anchor r - (if comp then 2 else 1)) (anchor r + (if comp then 2 else 1)),
                     Z.max (anchor r - (if comp then 2 else 1)) (anchor r + (if comp then 2 else 1)))).
      rewrite Hmin, Hmax in H. apply negb_true_iff, H.
      exists r. split; [exact Hr|]. simpl. left. rewrite Hmin, Hmax. reflexivity.
    + specialize (H (Z.min (head r - (if comp then 2 else 1)) (head r + (if comp then 2 else 1)),
                     Z.max (head r - (if comp then 2 else 1)) (head r + (if comp then 2 else 1)))).
      rewrite Hmin, Hmax in H. apply negb_true_iff, H.
      exists r. split; [exact Hr|]. simpl. right. left. rewrite Hmin, Hmax. reflexivity.
  - intros H [a b] [r [Hr Hin]]. simpl in Hin.
    rewrite !Hmin, !Hmax in Hin.
    apply negb_true_iff.
    destruct Hin as [E|[E|[]]]; injection E as <- <-.
    + apply (H r Hr (anchor r)). auto.
    + apply (H r Hr (head r)). auto.
Qed.

Lemma firstn_S_snoc {A} (L : list A) (k : nat) (t : A) :
  nth_error L k = Some t -> firstn (S k) L = firstn k L ++ [t].
Proof.
  revert k. induction L as [|x L IH]; intros [|k] H; simpl in *; try discriminate.
  - injection H as ->. reflexivity.
  - f_equal. apply IH. exact H.
Qed.

Lemma fence_before_S (L : list jstr) (k : nat) (t : jstr) :
  nth_error L k = Some t ->
  fence_before L (S k) = (if lineTogglesFence t then negb (fence_before L k) else fence_before L k).
Proof.
  intro H. unfold fence_before. rewrite (firstn_S_snoc L k t H), fold_left_app. reflexivity.
Qed.

Lemma skipn_cons_nth {A} (L : list A) (k : nat) (t : A) (rest : list A) :
  skipn k L = t :: rest -> nth_error L k = Some t /\ skipn (S k) L = rest.
Proof.
  revert k. induction L as [|x L IH]; intros [|k] H; simpl in *; try discriminate.
  - injection H as -> ->. auto.
  - apply IH. exact H.
Qed.

Lemma walk_fence_invariant style zones vTo (L : list jstr) :
  forall rest k from n text st ds,
    skipn k L = rest ->
    In (n, text, st, ds) (walk style zones vTo rest (S k) from (fence_before L k)) ->
    nth_error L (n - 1) = Some text /\ st = fence_before L n /\ (st = true -> ds = []).
Proof.
  induction rest as [|t rest' IH]; intros k from n text st ds Hsk Hin; simpl in Hin; [contradiction|].
  apply skipn_cons_nth in Hsk as [Hnth Hsk].
  destruct (from <=? vTo); [|contradiction].
  rewrite <- (fence_before_S L k t Hnth) in Hin.
  destruct Hin as [E|Hin].
  - injection E as <- <- <- <-. simpl. rewrite Nat.sub_0_r.
    split; [exact Hnth|]. split; [reflexivity|].
    intros ->. reflexivity.
  - destruct (from + zlen t >=? vTo); [contradiction|].
    exact (IH (S k) _ n text st ds Hsk Hin).
Qed.

Lemma lineAt_number_ge ls from n pos : (n <= lineAt_number ls from n pos)%nat.
Proof.
  revert from n. induction ls as [|t [|t' rest] IH]; intros from n; simpl; try lia.
  destruct (pos <=? from + zlen t); [lia|].
  specialize (IH (from + zlen t + 1) (S n)). simpl in IH. lia.
Qed.


(** C5: every line visited by a rebuild, the first visible one included, is
    scanned with the fence state obtained by toggling on every fence line
    from the start of the document through that line; that state depends
    only on the document and the line number, not on the viewport, and a
    line inside a fence adds no decoration. *)
Theorem fence_state_causal (style : NotationStyle) (view : EditorView)
    (n : nat) (text : jstr) (st : bool) (ds : list Deco) :
  In (n, text, st, ds) (visited_lines style (noDecor (ranges view) (composing view)) view) ->
  nth_error (doc_lines view) (n - 1) = Some text
  /\ st = fence_before (doc_lines view) n
  /\ (st = true -> ds = []).
Proof.
  unfold visited_lines. intro Hin.
  set (L := doc_lines view) in *.
  set (first := lineAt_number L 0 1 (visFrom view)) in *.
  assert (Hf : first = S (first - 1)).
  { pose proof (lineAt_number_ge L 0 1 (visFrom view)). subst first. lia. }
  rewrite Hf in Hin at 2.
  exact (walk_fence_invariant style _ (visTo view) L _ (first - 1) _ n text st ds eq_refl Hin).
Qed.

Lemma fence_state_causal_witness :
  In (2%nat, kanji_line, true, [])
     (visited_lines Curly (noDecor (ranges fenced_view) (composing fenced_view)) fenced_view)
  /\ nth_error (doc_lines fenced_view) 1 = Some kanji_line
  /\ true = fence_before (doc_lines fenced_view) 2
  /\ (true = true -> @nil Deco = []).
Proof.
  assert (H : In (2%nat, kanji_line, true, [])
     (visited_lines Curly (noDecor (ranges fenced_view) (composing fenced_view)) fenced_view))
    by (vm_compute; left; reflexivity).
  split; [exact H|].
  exact (fence_state_causal Curly fenced_view 2 kanji_line true [] H).
Defined.

(** The ranges a rebuild adds are its candidates that overlap no buffer
    zone [[p - w, p + w)] around a selection endpoint [p] (anchor or head),
    where [w] is 2 while composing and 1 otherwise. *)
Lemma buildDecorations_zone_filter (view : EditorView) (style : NotationStyle) (d : Deco) :
  In d (buildDecorations view style)
  <-> In d (decoration_candidates view style)
      /\ (forall r, In r (ranges view) -> forall p, p = anchor r \/ p = head r ->
            let w := if composing view then 2 else 1 in
            overlaps (fst (fst d)) (snd (fst d)) (p - w) (p + w) = false).
Proof.
  unfold buildDecorations, decoration_candidates.
  rewrite build_with_zones_iff, noDecor_clear. reflexivity.
Qed.

(** C6 (failing input): on [今日{漢字|かんじ}] with the caret at offset 1, the
    rebuild omits [今日] ([[0, 2)] overlaps the buffer [[0, 2)]) and adds the
    other ranges in order.  Once the caret moves to offset 11 on the next
    line, [今日] overlaps no buffer, but the rebuild adds [[2, 10)] before
    [[0, 2)]: [RangeSetBuilder.add] throws, and the plugin shows no
    decoration at all instead of bringing [今日] back. *)
Theorem caret_move_away_rebuild_throws :
  decorationSet c6_caret_view Curly
  = Some [(2, 10, manual_ok); (3, 5, kanji_line); (6, 9, [c_ka; c_n; c_zi])]
  /\ ranges c6_caret_view = [{| anchor := 1; head := 1 |}]
  /\ overlaps 0 2 (1 - 1) (1 + 1) = true
  /\ In (0, 2, [c_kon; c_nichi]) (decoration_candidates c3_view Curly)
  /\ (forall r, In r (ranges c3_view) -> forall p, p = anchor r \/ p = head r ->
        overlaps 0 2 (p - 1) (p + 1) = false)
  /\ buildDecorations c3_view Curly
     = [(2, 10, manual_ok); (0, 2, [c_kon; c_nichi]); (3, 5, kanji_line); (6, 9, [c_ka; c_n; c_zi])]
  /\ decorationSet c3_view Curly = None
  /\ live_decorations c3_view Curly = [].
Proof.
  split; [vm_compute; reflexivity|]. split; [reflexivity|].
  split; [reflexivity|]. split; [vm_compute; right; left; reflexivity|].
  split; [intros r [<- | []] p [-> | ->]; reflexivity|].
  split; [vm_compute; reflexivity|]. split; vm_compute; reflexivity.
Qed.

(** *** The matchers *)

Lemma count_while_nth (p : Z -> bool) (l : jstr) (x : Z) :
  nth_error l (count_while p l) = Some x -> p x = false.
Proof.
  induction l as [|c l IH]; simpl; [discriminate|].
  destruct (p c) eqn:E; simpl; [exact IH|]. intro H. injection H as <-. exact E.
Qed.

Lemma count_while_prefix (p : Z -> bool) (l : jstr) :
  forallb p (firstn (count_while p l) l) = true.
Proof.
  induction l as [|c l IH]; simpl; [reflexivity|].
  destruct (p c) eqn:E; simpl; [rewrite E; exact IH|reflexivity].
Qed.

Lemma auto_scan_sound (fuel i : nat) (l : jstr) (j : nat) (m : jstr) :
  In (j, m) (auto_scan fuel i l) -> m <> [] /\ forallb is_auto_quick_char m = true.
Proof.
  revert i l. induction fuel as [|f IH]; intros i l H; [contradiction|].
  destruct l as [|c l']; [contradiction|].
  simpl in H. destruct (is_auto_quick_char c) eqn:E.
  - destruct H as [Hm|H].
    + injection Hm as _ <-. split; [discriminate|].
      simpl. rewrite E. apply count_while_prefix.
    + exact (IH _ _ H).
  - exact (IH _ _ H).
Qed.

Lemma parse_notation_head (op cl : Z) (m : jstr) r :
  parse_notation op cl m = Some r -> exists rest, m = op :: rest.
Proof.
  destruct m as [|c rest]; simpl; [discriminate|].
  destruct (c =? op) eqn:E; [|discriminate].
  apply Z.eqb_eq in E. subst. eauto.
Qed.

Lemma auto_match_not_manual (text : jstr) (i : nat) (m : jstr) :
  In (i, m) (auto_matches text) -> parse_manual_any m = None.
Proof.
  intro H. apply auto_scan_sound in H as [Hne Hall].
  destruct m as [|c m']; [congruence|].
  simpl in Hall. apply andb_true_iff in Hall as [Hc _].
  unfold parse_manual_any.
  destruct (parse_notation 123 125 (c :: m')) as [r|] eqn:E1.
  { apply parse_notation_head in E1 as [rest E1]. injection E1 as -> _. discriminate. }
  destruct (parse_notation 91 93 (c :: m')) as [r|] eqn:E2; [|reflexivity].
  apply parse_notation_head in E2 as [rest E2]. injection E2 as -> _. discriminate.
Qed.

Lemma split_on_nonempty (sep : Z) (l : jstr) : split_on sep l <> [].
Proof.
  destruct l as [|c l]; simpl; [discriminate|].
  destruct (c =? sep); [discriminate|]. destruct (split_on sep l); discriminate.
Qed.

Lemma split_on_join (sep : Z) (l : jstr) (w : jstr) (ws : list jstr) :
  split_on sep l = w :: ws -> l = w ++ concat (map (cons sep) ws).
Proof.
  revert w ws. induction l as [|c l IH]; intros w ws H; simpl in H.
  - injection H as <- <-. reflexivity.
  - destruct (c =? sep) eqn:E.
    + injection H as <- <-. apply Z.eqb_eq in E. subst c.
      destruct (split_on sep l) as [|w' ws'] eqn:Es; [exfalso; exact (split_on_nonempty sep l Es)|].
      rewrite (IH w' ws' eq_refl). reflexivity.
    + destruct (split_on sep l) as [|w' ws'] eqn:Es; [exfalso; exact (split_on_nonempty sep l Es)|].
      injection H as <- <-. rewrite (IH w' ws' eq_refl). reflexivity.
Qed.

Lemma split_on_no_sep (sep : Z) (l : jstr) : Forall (fun w => ~ In sep w) (split_on sep l).
Proof.
  induction l as [|c l IH]; simpl.
  - constructor; [simpl; tauto|constructor].
  - destruct (c =? sep) eqn:E.
    + constructor; [simpl; tauto|exact IH].
    + destruct (split_on sep l) as [|w ws]; [constructor; [|constructor]|].
      * simpl. intros [H|[]]. subst. rewrite Z.eqb_refl in E. discriminate.
      * inversion IH as [|? ? Hw Hws]; subst. constructor; [|exact Hws].
        simpl. intros [H|H]; [subst; rewrite Z.eqb_refl in E; discriminate|exact (Hw H)].
Qed.

Lemma count_while_firstn (p : Z -> bool) (l : jstr) (d : Z) :
  nth_error l (count_while p l) = Some d ->
  count_while p (firstn (S (count_while p l)) l) = count_while p l.
Proof.
  induction l as [|c l IH]; intro H; cbn [count_while nth_error] in *; [discriminate|].
  destruct (p c) eqn:E; cbn [firstn count_while]; rewrite E; [|reflexivity].
  f_equal. exact (IH H).
Qed.

Lemma nth_error_firstn_S {A} (l : list A) (k : nat) (x : A) :
  nth_error l k = Some x -> nth_error (firstn (S k) l) k = Some x.
Proof.
  revert k. induction l as [|y l IH]; intros [|k] H; simpl in *; try discriminate; auto.
Qed.

Lemma firstn_firstn_S {A} (l : list A) (k : nat) : firstn k (firstn (S k) l) = firstn k l.
Proof. rewrite firstn_firstn. f_equal. lia. Qed.

(** A notation recognised at the head of [l] is recognised on its own span. *)
Lemma parse_notation_span (op cl : Z) (l : jstr) (len : nat) (base : jstr) (rs : list jstr) :
  parse_notation op cl l = Some (len, base, rs) ->
  parse_notation op cl (firstn len l) = Some (len, base, rs)
  /\ List.length (firstn len l) = len
  /\ firstn len l = op :: base ++ concat (map (cons PIPE) rs) ++ [cl]
  /\ valid_notation base rs = true
  /\ Forall (fun w => ~ In PIPE w) (base :: rs).
Proof.
  destruct l as [|c rest]; simpl; [discriminate|].
  destruct (c =? op) eqn:Eop; [|discriminate]. apply Z.eqb_eq in Eop. subst c.
  set (P := fun d => negb (d =? op) && negb (d =? cl)).
  destruct (nth_error rest (count_while P rest)) as [d|] eqn:Ed; [|discriminate].
  destruct (d =? cl) eqn:Ecl; [|discriminate]. apply Z.eqb_eq in Ecl. subst d.
  destruct (split_on PIPE (firstn (count_while P rest) rest)) as [|base' rs'] eqn:Es; [discriminate|].
  destruct (valid_notation base' rs') eqn:Ev; [|discriminate].
  intro H. injection H as <- <- <-.
  assert (Hlen : (count_while P rest < List.length rest)%nat).
  { apply nth_error_Some. rewrite Ed. discriminate. }
  assert (Hsnoc : firstn (S (count_while P rest)) rest = firstn (count_while P rest) rest ++ [cl])
    by (apply firstn_S_snoc; exact Ed).
  replace (firstn (S (S (count_while P rest))) (op :: rest))
    with (op :: firstn (S (count_while P rest)) rest) by reflexivity.
  unfold parse_notation. rewrite Z.eqb_refl.
  change (fun d => negb (d =? op) && negb (d =? cl)) with P.
  rewrite (count_while_firstn P rest cl Ed).
  rewrite (nth_error_firstn_S rest _ cl Ed), Z.eqb_refl, firstn_firstn_S, Es, Ev.
  split; [reflexivity|]. split.
  { cbn [List.length]. rewrite length_firstn. lia. }
  split.
  { rewrite Hsnoc, (split_on_join PIPE _ _ _ Es), <- app_assoc. reflexivity. }
  split; [reflexivity|].
  rewrite <- Es. apply split_on_no_sep.
Qed.

Lemma manual_scan_sound (op cl : Z) (fuel i : nat) (l : jstr) (j : nat) (m : jstr) :
  In (j, m) (manual_scan op cl fuel i l) ->
  exists base rs,
    parse_notation op cl m = Some (List.length m, base, rs)
    /\ m = op :: base ++ concat (map (cons PIPE) rs) ++ [cl]
    /\ valid_notation base rs = true
    /\ Forall (fun w => ~ In PIPE w) (base :: rs).
Proof.
  revert i l. induction fuel as [|f IH]; intros i l H; [contradiction|].
  destruct l as [|c l']; [contradiction|].
  cbn [manual_scan] in H.
  destruct (parse_notation op cl (c :: l')) as [[[len base] rs]|] eqn:E.
  - destruct H as [Hm|H].
    + injection Hm as _ <-.
      destruct (parse_notation_span op cl _ _ _ _ E) as [Hp [Hl [Hs [Hv Hf]]]].
      exists base, rs. rewrite Hl. auto.
    + exact (IH _ _ H).
  - exact (IH _ _ H).
Qed.

(** *** Stripping readings *)

Lemma concat_chars_aux (l : jstr) :
  concat (chars l) = l /\ forall h, concat (chars (h :: l)) = h :: l.
Proof.
  induction l as [|l2 r [IH1 IH2]]; split.
  - reflexivity.
  - intro h. reflexivity.
  - exact (IH2 l2).
  - intro h.
    assert (E : chars (h :: l2 :: r)
                = if is_high_surrogate h && is_low_surrogate l2 then [h; l2] :: chars r
                  else [h] :: chars (l2 :: r)) by reflexivity.
    rewrite E. destruct (is_high_surrogate h && is_low_surrogate l2).
    + change (h :: l2 :: concat (chars r) = h :: l2 :: r). rewrite IH1. reflexivity.
    + change (h :: concat (chars (l2 :: r)) = h :: l2 :: r). rewrite (IH2 l2). reflexivity.
Qed.

Lemma concat_chars (l : jstr) : concat (chars l) = l.
Proof. apply concat_chars_aux. Qed.

Lemma strip_ruby_children (ks fs : list jstr) :
  concat (map strip_child (ruby_children ks fs)) = concat ks.
Proof.
  revert fs. induction ks as [|k ks IH]; intro fs; [reflexivity|].
  cbn [ruby_children map concat strip_child].
  destruct fs as [|r fs']; [|destruct r as [|c r']];
    cbn [app map concat strip_child tl]; rewrite IH; reflexivity.
Qed.

(** Rendering a segment and stripping its readings gives its base chunks. *)
Lemma strip_toDOM (tokenize : jstr -> option (list Token)) (m : jstr) :
  strip_readings (toDOM tokenize m)
  = concat (map (fun seg => concat (kanji seg)) (getFuriganaSegmentsSync tokenize m)).
Proof.
  unfold strip_readings, toDOM. rewrite map_map. f_equal. apply map_ext.
  intro seg. destruct (allKana seg); [reflexivity|].
  apply strip_ruby_children.
Qed.

(** C1 (corrected): stripping the readings from the widget of an automatic
    match gives back the matched text, for a tokenizer whose surface forms
    cover its input; for a manual match [op base|r1|...|rk cl] it gives the
    base only, without brackets, pipes and readings. *)
Theorem strip_readings_roundtrip (tokenize : jstr -> option (list Token))
    (tokenize_covers : forall t toks, tokenize t = Some toks -> concat (map surface toks) = t) :
  (forall text i m, In (i, m) (auto_matches text) -> strip_readings (toDOM tokenize m) = m)
  /\ (forall style text i m, In (i, m) (manual_matches style text) ->
        exists op cl base rs,
          brackets style = Some (op, cl)
          /\ m = op :: base ++ concat (map (cons PIPE) rs) ++ [cl]
          /\ strip_readings (toDOM tokenize m) = base).
Proof.
  split.
  - intros text i m H. rewrite strip_toDOM. unfold getFuriganaSegmentsSync.
    rewrite (auto_match_not_manual text i m H).
    destruct (tokenize m) as [toks|] eqn:Et.
    + rewrite map_map. cbn [kanji concat].
      rewrite <- (tokenize_covers m toks Et). f_equal. apply map_ext.
      intro t. apply app_nil_r.
    + cbn. rewrite !app_nil_r. reflexivity.
  - intros style text i m H. unfold manual_matches in H.
    destruct (brackets style) as [[op cl]|] eqn:Eb; [|contradiction].
    destruct (manual_scan_sound op cl _ _ _ _ _ H) as [base [rs [Hp [Hm [Hv _]]]]].
    exists op, cl, base, rs. split; [reflexivity|]. split; [exact Hm|].
    assert (Hany : parse_manual_any m = Some (base, rs)).
    { unfold parse_manual_any.
      destruct style; cbn in Eb; try discriminate; injection Eb as <- <-.
      - rewrite Hp, Nat.eqb_refl. reflexivity.
      - destruct (parse_notation 123 125 m) as [r|] eqn:E1.
        + apply parse_notation_head in E1 as [rest E1]. rewrite Hm in E1. discriminate.
        + rewrite Hp, Nat.eqb_refl. reflexivity. }
    rewrite strip_toDOM. unfold getFuriganaSegmentsSync. rewrite Hany.
    destruct rs as [|r [|r2 rs']]; cbn [map concat kanji]; rewrite ?app_nil_r;
      try reflexivity; apply concat_chars.
Qed.

Lemma strip_readings_roundtrip_witness :
  strip_readings (toDOM tok_whole kanji_line) = kanji_line.
Proof.
  refine (proj1 (strip_readings_roundtrip tok_whole _) kanji_line 0%nat kanji_line _).
  - intros t toks H. unfold tok_whole in H. injection H as <-. apply app_nil_r.
  - vm_compute. left. reflexivity.
Defined.

(** C1 counterexample: the manual match [{漢字|かんじ}] renders as
    [漢字] with the reading [かんじ]; without the reading it is [漢字], not the
    matched text. *)
Lemma strip_readings_manual_counterexample :
  In (0%nat, manual_ok) (manual_matches Curly manual_ok)
  /\ strip_readings (toDOM (fun _ => None) manual_ok) = kanji_line
  /\ strip_readings (toDOM (fun _ => None) manual_ok) <> manual_ok.
Proof.
  split; [vm_compute; left; reflexivity|].
  split; [vm_compute; reflexivity|].
  vm_compute. discriminate.
Qed.

(** C2: a span recognised as a manual override is [op base|r1|...|rk cl]
    with a non-empty base, pipe-free base and segments, at least one
    segment, and, when there is more than one segment, exactly as many
    segments as the base has characters.  A span breaking this is not a
    manual match; the automatic pass of [line_decorations] scans the whole
    line regardless of the manual matches. *)
Theorem manual_match_segment_count (style : NotationStyle) (text : jstr) (i : nat) (m : jstr) :
  In (i, m) (manual_matches style text) ->
  exists op cl base rs,
    brackets style = Some (op, cl)
    /\ m = op :: base ++ concat (map (cons PIPE) rs) ++ [cl]
    /\ ~ In PIPE base /\ Forall (fun r => ~ In PIPE r) rs
    /\ base <> [] /\ rs <> []
    /\ ((1 < List.length rs)%nat -> List.length rs = List.length (chars base)).
Proof.
  unfold manual_matches. intro H.
  destruct (brackets style) as [[op cl]|] eqn:Eb; [|contradiction].
  destruct (manual_scan_sound op cl _ _ _ _ _ H) as [base [rs [Hp [Hm [Hv Hno]]]]].
  exists op, cl, base, rs. split; [reflexivity|]. split; [exact Hm|].
  inversion Hno as [|? ? Hb Hrs]; subst.
  split; [exact Hb|]. split; [exact Hrs|].
  unfold valid_notation in Hv.
  apply andb_true_iff in Hv as [Hv Hcount]. apply andb_true_iff in Hv as [Hv _].
  apply andb_true_iff in Hv as [Hb0 Hr0].
  split; [destruct base; [discriminate|congruence]|].
  split; [destruct rs; [discriminate|congruence]|].
  intro Hlt. apply orb_true_iff in Hcount as [E|E]; apply Nat.eqb_eq in E; [|exact E]. unfold jstr in *. lia.
Qed.

Lemma manual_match_segment_count_witness :
  In (0%nat, manual_ok) (manual_matches Curly manual_ok)
  /\ exists op cl base rs,
       brackets Curly = Some (op, cl)
       /\ manual_ok = op :: base ++ concat (map (cons PIPE) rs) ++ [cl]
       /\ ~ In PIPE base /\ Forall (fun r => ~ In PIPE r) rs
       /\ base <> [] /\ rs <> []
       /\ ((1 < List.length rs)%nat -> List.length rs = List.length (chars base)).
Proof.
  assert (H : In (0%nat, manual_ok) (manual_matches Curly manual_ok)) by (vm_compute; left; reflexivity).
  split; [exact H|].
  exact (manual_match_segment_count Curly manual_ok 0 manual_ok H).
Defined.

(** [{漢字|か|ん|じ}] is no manual match: its line is decorated by the
    automatic pass alone ([漢字], then [か], [ん], [じ]). *)
Lemma manual_mismatch_falls_through :
  manual_matches Curly manual_mismatch = []
  /\ line_decorations Curly [] 0 manual_mismatch
     = [(1, 3, kanji_line); (4, 5, [c_ka]); (6, 7, [c_n]); (8, 9, [c_zi])].
Proof. split; vm_compute; reflexivity. Qed.

(** C4: for an automatic match, a token whose surface form is made only of
    kana (the class of [toDOM]'s [/^[\u3040-\u30FF\u30FC]+$/]) is rendered as a
    plain text node holding the surface form, whatever reading the tokenizer
    gave it. *)
Theorem kana_token_plain_text (tokenize : jstr -> option (list Token)) (text : jstr) (i : nat)
    (m : jstr) (toks : list Token) (k : nat) (t : Token) :
  In (i, m) (auto_matches text) ->
  tokenize m = Some toks ->
  nth_error toks k = Some t ->
  is_all_kana (surface t) = true ->
  nth_error (toDOM tokenize m) k = Some (OText (surface t)).
Proof.
  intros Hm Ht Hk Hkana. unfold toDOM, getFuriganaSegmentsSync.
  rewrite (auto_match_not_manual text i m Hm), Ht, map_map, nth_error_map, Hk.
  cbn [option_map kanji allKana forallb concat]. rewrite Hkana, app_nil_r. reflexivity.
Qed.

Lemma kana_token_plain_text_witness :
  nth_error (toDOM tok_katakana kana_word) 0 = Some (OText kana_word).
Proof.
  refine (kana_token_plain_text tok_katakana kana_word 0 kana_word
            [{| surface := kana_word; reading := [12459; 12490] |}] 0
            {| surface := kana_word; reading := [12459; 12490] |} _ _ _ _).
  - vm_compute. left. reflexivity.
  - reflexivity.
  - reflexivity.
  - vm_compute. reflexivity.
Defined.

(** C3 (failing input): on the line [今日{漢字|かんじ}] the manual span
    [[2, 10)] is added first, then the automatic runs [[0, 2)], [[3, 5)]
    and [[6, 9)]: the adds are not in ascending order, and [[3, 5)] and
    [[6, 9)] lie inside the manual span, since the automatic pass never
    consults the manual matches. *)
Theorem auto_pass_ignores_manual_spans :
  buildDecorations c3_view Curly
  = [(2, 10, manual_ok); (0, 2, [c_kon; c_nichi]); (3, 5, kanji_line); (6, 9, [c_ka; c_n; c_zi])]
  /\ overlaps 2 10 3 5 = true
  /\ overlaps 2 10 6 9 = true.
Proof. split; [|split]; vm_compute; reflexivity. Qed.

(** C7 (failing input): for a note whose frontmatter sets
    [auto-furigana: off], the Reading Mode postprocessor returns before
    scanning, but the Live Preview plugin, built from the view alone,
    decorates [漢字] on the note's fourth line. *)
Theorem live_preview_ignores_skip_flag :
  shouldSkipByPath skipped_cache "note.md" = true
  /\ readingModeBlocks settings_on skipped_cache "note.md" [] skipped_rendered = []
  /\ decorations (plugin_create Curly skipped_store 0%nat) = [(27, 29, kanji_line)].
Proof. split; [|split]; vm_compute; reflexivity. Qed.

(** *** Inline code spans *)

Lemma nth_error_skipn' {A} (l : list A) (i k : nat) :
  nth_error (skipn i l) k = nth_error l (i + k).
Proof.
  revert l. induction i as [|i IH]; intros [|x l]; simpl; auto.
  destruct k; reflexivity.
Qed.

Lemma tick_run_end (s : jstr) (i : nat) : is_tick s (i + tick_run s i) = false.
Proof.
  unfold is_tick, tick_run. rewrite <- nth_error_skipn'.
  destruct (nth_error (skipn i s) (count_while (Z.eqb BACKTICK) (skipn i s))) as [x|] eqn:E;
    [|reflexivity].
  apply count_while_nth in E. rewrite Z.eqb_sym. exact E.
Qed.

Lemma find_close_sound (fuel : nat) (s : jstr) (n : nat) :
  forall j c,
    (is_tick s j = true -> (0 < j)%nat /\ is_tick s (j - 1) = false) ->
    find_close fuel s n j = Some c ->
    (j <= c)%nat /\ is_tick s c = true /\ is_tick s (c - 1) = false /\ tick_run s c = n.
Proof.
  induction fuel as [|f IH]; intros j c Hinv H; simpl in H; [discriminate|].
  destruct (j <? List.length s)%nat; [|discriminate].
  destruct (is_tick s j) eqn:Et.
  - destruct (tick_run s j =? n)%nat eqn:Er.
    + injection H as <-. apply Nat.eqb_eq in Er.
      destruct (Hinv eq_refl) as [_ Hprev]. repeat split; auto.
    + apply IH in H as [Hle Hrest]; [split; [lia|exact Hrest]|].
      rewrite tick_run_end. discriminate.
  - apply IH in H as [Hle Hrest]; [split; [lia|exact Hrest]|].
    intros _. split; [lia|]. rewrite Nat.add_sub. exact Et.
Qed.

Lemma scan_ticks_sound (fuel : nat) (s : jstr) :
  forall i a b, In (a, b) (scan_ticks fuel s i) ->
    exists c, (a + tick_run s a <= c)%nat /\ is_tick s c = true /\ is_tick s (c - 1) = false
              /\ tick_run s c = tick_run s a /\ b = (c + tick_run s a)%nat.
Proof.
  induction fuel as [|f IH]; intros i a b H; simpl in H; [contradiction|].
  destruct (i <? List.length s)%nat; [|contradiction].
  destruct (is_tick s i).
  - destruct (find_close (List.length s) s (tick_run s i) (i + tick_run s i)) as [c|] eqn:Ec;
      [|contradiction].
    destruct H as [E|H].
    + injection E as <- <-.
      apply find_close_sound in Ec as [Hle [Ht [Hp Hr]]].
      * exists c. auto.
      * rewrite tick_run_end. discriminate.
    + exact (IH _ _ _ H).
  - exact (IH _ _ _ H).
Qed.

(** The outer loop of [inlineBacktickRanges] stops at an opener [a] with no
    closing run: from any [i <= a], if no range it finds contains [a], every
    range it finds ends at or before [a]. *)
Lemma scan_ticks_stops (s : jstr) (a : nat) :
  is_tick s a = true ->
  find_close (List.length s) s (tick_run s a) (a + tick_run s a) = None ->
  forall fuel i, (i <= a)%nat ->
    (forall x y, In (x, y) (scan_ticks fuel s i) -> ~ (x <= a < y)%nat) ->
    forall x y, In (x, y) (scan_ticks fuel s i) -> (y <= a)%nat.
Proof.
  intros Ht Hn fuel. induction fuel as [|f IH]; intros i Hi Hout x y Hin;
    cbn [scan_ticks] in Hin, Hout; [contradiction|].
  destruct (i <? List.length s)%nat; [|contradiction].
  destruct (is_tick s i) eqn:Ei.
  - destruct (find_close (List.length s) s (tick_run s i) (i + tick_run s i)) as [c|] eqn:Ec;
      [|contradiction].
    assert (Hr : (c + tick_run s i <= a)%nat).
    { destruct (Nat.le_gt_cases (c + tick_run s i) a) as [H|H]; [exact H|].
      exfalso. apply (Hout i (c + tick_run s i)%nat); [left; reflexivity|lia]. }
    destruct Hin as [E|Hin].
    + injection E as <- <-. exact Hr.
    + exact (IH _ Hr (fun x' y' H => Hout x' y' (or_intror H)) x y Hin).
  - assert (Hia : i <> a) by (intros ->; congruence).
    exact (IH (i + 1)%nat ltac:(lia) Hout x y Hin).
Qed.


(** C9 (failing input): composition starts on a view whose document,
    selection and viewport are unchanged.  [update] compares
    [u.view.composing] with [this.view.composing], two reads of the same
    view, so it keeps the decoration of [漢字] that the widened buffer
    would now remove. *)
Theorem composition_change_not_a_trigger :
  composing (ime_before 0%nat) = false
  /\ composing (ime_after 0%nat) = true
  /\ decorations (host_update Curly ime_after false false false []
                   (plugin_create Curly ime_before 0%nat))
     = [(0, 2, kanji_line)]
  /\ buildDecorations (ime_after 0%nat) Curly = [].
Proof. repeat split; vm_compute; reflexivity. Qed.

(** *** Reading Mode text collection *)

Definition not_skippable (tags : list string) : bool :=
  forallb (fun t => negb (isSkippableElement t)) tags.

Lemma collect_sound (n : Node) :
  forall ancs p v,
    closest_ruby ancs = false ->
    In (p, v) (collectTextNodes ancs n) ->
    closest_ruby p = false /\ exists below, p = below ++ ancs /\ not_skippable below = true.
Proof.
  induction n as [v0|tag kids IHkids|] using Node_ind'; intros ancs p v Hanc Hin.
  - cbn in Hin. destruct (trim_nonempty v0); [|contradiction].
    destruct Hin as [E|[]]. injection E as <- _.
    split; [exact Hanc|]. exists []. auto.
  - cbn [collectTextNodes] in Hin.
    destruct (isSkippableElement tag) eqn:Es; [contradiction|].
    destruct (closest_ruby (tag :: ancs)) eqn:Ec; [contradiction|].
    induction IHkids as [|k ks IHk _ IHks]; [contradiction|].
    apply in_app_iff in Hin as [Hin|Hin].
    + destruct (IHk (tag :: ancs) p v Ec Hin) as [Hp [below [-> Hb]]].
      split; [exact Hp|]. exists (below ++ [tag]).
      rewrite <- app_assoc. split; [reflexivity|].
      unfold not_skippable in *. rewrite forallb_app, Hb. cbn. rewrite Es. reflexivity.
    + exact (IHks Hin).
  - contradiction.
Qed.

(** C10 (corrected): a text node collected from a scanned element has no
    [<ruby>] among all its ancestors, those above the scanned element
    included, and no [<code>], [<pre>], [<script>], [<style>] or [<ruby>]
    between the scanned element and itself; so a replacement never puts a
    new [<ruby>] inside an existing one. *)
Theorem collected_text_outside_ruby (ancs : list string) (tag : string) (kids : list Node)
    (p : list string) (v : jstr) :
  In (p, v) (collectTextNodes ancs (NElem tag kids)) ->
  closest_ruby p = false
  /\ exists below, p = below ++ ancs /\ below <> [] /\ not_skippable below = true.
Proof.
  intro Hin. cbn [collectTextNodes] in Hin.
  destruct (isSkippableElement tag) eqn:Es; [contradiction|].
  destruct (closest_ruby (tag :: ancs)) eqn:Ec; [contradiction|].
  induction kids as [|k ks IHks]; [contradiction|].
  apply in_app_iff in Hin as [Hin|Hin]; [|exact (IHks Hin)].
  destruct (collect_sound k (tag :: ancs) p v Ec Hin) as [Hp [below [-> Hb]]].
  split; [exact Hp|]. exists (below ++ [tag]). rewrite <- app_assoc.
  split; [reflexivity|]. split; [destruct below; discriminate|].
  unfold not_skippable in *. rewrite forallb_app, Hb. cbn. rewrite Es. reflexivity.
Qed.

Lemma collected_text_outside_ruby_witness :
  closest_ruby ["p"; "div"]%string = false
  /\ exists below, ["p"; "div"]%string = below ++ ["div"%string] /\ below <> []
                   /\ not_skippable below = true.
Proof.
  apply (collected_text_outside_ruby ["div"%string] "p" [NText kanji_line] ["p"; "div"]%string kanji_line).
  vm_compute. left. reflexivity.
Defined.

(** C10 counterexample: a paragraph inside a [<pre>] is one of the blocks
    the postprocessor scans, and its text is collected for conversion
    although it lies inside [<pre>]. *)
Lemma pre_ancestor_counterexample :
  flat_map processBlock_textNodes (readingModeBlocks settings_on no_frontmatter "note.md" [] pre_paragraph)
  = [(["p"; "pre"; "div"]%string, kanji_line)].
Proof. vm_compute. reflexivity. Qed.

(** ** Further properties of the code *)

Lemma count_while_le (p : Z -> bool) (l : jstr) : (count_while p l <= List.length l)%nat.
Proof. induction l as [|c l IH]; simpl; [lia|]. destruct (p c); simpl; lia. Qed.

Lemma tick_run_bound (s : jstr) (i : nat) : (i + tick_run s i <= List.length s \/ tick_run s i = 0)%nat.
Proof.
  unfold tick_run. pose proof (count_while_le (Z.eqb BACKTICK) (skipn i s)).
  rewrite length_skipn in H. lia.
Qed.

Lemma is_tick_run_pos (s : jstr) (i : nat) : is_tick s i = true -> (1 <= tick_run s i)%nat.
Proof.
  unfold is_tick, tick_run. replace i with (i + 0)%nat at 1 by lia. rewrite <- nth_error_skipn'.
  destruct (skipn i s) as [|c l]; cbn [nth_error count_while]; [discriminate|].
  intro H. rewrite Z.eqb_sym, H. lia.
Qed.

Lemma find_close_bounds (fuel : nat) (s : jstr) (n : nat) :
  forall j c, find_close fuel s n j = Some c -> (j <= c)%nat /\ (c < List.length s)%nat /\ tick_run s c = n.
Proof.
  induction fuel as [|f IH]; intros j c H; simpl in H; [discriminate|].
  destruct (j <? List.length s)%nat eqn:Ej; [|discriminate]. apply Nat.ltb_lt in Ej.
  destruct (is_tick s j).
  - destruct (tick_run s j =? n)%nat eqn:Er.
    + injection H as <-. apply Nat.eqb_eq in Er. lia.
    + apply IH in H. lia.
  - apply IH in H. lia.
Qed.

Lemma scan_ticks_ordered (fuel : nat) (s : jstr) :
  forall i, ordered_ranges i (scan_ticks fuel s i)
            /\ Forall (fun '(_, b) => (b <= List.length s)%nat) (scan_ticks fuel s i).
Proof.
  induction fuel as [|f IH]; intro i; simpl; [split; [exact I | constructor]|].
  destruct (i <? List.length s)%nat eqn:Ei; [|split; [exact I | constructor]].
  destruct (is_tick s i) eqn:Et.
  - destruct (find_close (List.length s) s (tick_run s i) (i + tick_run s i)) as [c|] eqn:Ec;
      [|split; [exact I | constructor]].
    apply find_close_bounds in Ec as [Hle [Hlt Hr]].
    pose proof (is_tick_run_pos s i Et).
    destruct (tick_run_bound s c) as [Hb|Hb]; [|lia].
    destruct (IH (c + tick_run s i)%nat) as [IH1 IH2].
    simpl. split; [split; [lia | exact IH1]|].
    constructor; [lia | exact IH2].
  - destruct (IH (i + 1)%nat) as [IH1 IH2]. split; [|exact IH2].
    destruct (scan_ticks f s (i + 1)) as [|[a b] r]; simpl in *; [exact I|]. 
    destruct IH1 as [H1 H2]. split; [lia | exact H2].
Qed.

(** X1: the inline code ranges [inlineBacktickRanges] finds in a line are
    in ascending order, non-empty and pairwise disjoint, and each ends within
    the line. *)
Theorem inlineBacktickRanges_ordered (s : jstr) :
  ordered_ranges 0 (inlineBacktickRanges s)
  /\ Forall (fun '(_, b) => (b <= List.length s)%nat) (inlineBacktickRanges s).
Proof. unfold inlineBacktickRanges. apply scan_ticks_ordered. Qed.

Lemma run_ticks (s : jstr) (j k : nat) :
  (j <= k < j + tick_run s j)%nat -> is_tick s k = true.
Proof.
  unfold tick_run, is_tick. intro H.
  replace k with (j + (k - j))%nat by lia. rewrite <- nth_error_skipn'.
  assert (Hk : (k - j < count_while (Z.eqb BACKTICK) (skipn j s))%nat) by lia.
  revert Hk. generalize (k - j)%nat. generalize (skipn j s) as l.
  induction l as [|c l IH]; intros m Hm; cbn [count_while] in Hm; [lia|].
  destruct (Z.eqb BACKTICK c) eqn:E; [|lia].
  destruct m as [|m]; cbn [nth_error].
  - rewrite Z.eqb_sym. exact E.
  - apply IH. lia.
Qed.

Lemma find_close_first (fuel : nat) (s : jstr) (n : nat) :
  forall j c, find_close fuel s n j = Some c ->
    (is_tick s j = true -> (0 < j)%nat /\ is_tick s (j - 1) = false) ->
    forall c', (j <= c' < c)%nat -> is_tick s c' = true -> is_tick s (c' - 1) = false ->
      tick_run s c' <> n.
Proof.
  induction fuel as [|f IH]; intros j c H Hinv c' Hc' Ht Hp; simpl in H; [discriminate|].
  destruct (j <? List.length s)%nat; [|discriminate].
  destruct (is_tick s j) eqn:Et.
  - destruct (tick_run s j =? n)%nat eqn:Er.
    + injection H as <-. lia.
    + apply Nat.eqb_neq in Er.
      destruct (Nat.eq_dec c' j) as [->|Hne]; [exact Er|].
      destruct (Nat.lt_ge_cases c' (j + tick_run s j)) as [Hlt|Hge].
      * rewrite (run_ticks s j (c' - 1)) in Hp; [discriminate|lia].
      * apply (IH (j + tick_run s j)%nat c H); auto; [|lia].
        rewrite tick_run_end. discriminate.
  - destruct (Nat.eq_dec c' j) as [->|Hne]; [rewrite Et in Ht; discriminate|].
    apply (IH (j + 1)%nat c H); auto; [|lia].
    intros _. replace (j + 1 - 1)%nat with j by lia. split; [lia | exact Et].
Qed.

Lemma scan_ticks_found (fuel : nat) (s : jstr) :
  forall i a b, In (a, b) (scan_ticks fuel s i) ->
    (is_tick s i = true -> i = 0%nat \/ is_tick s (i - 1) = false) ->
    is_tick s a = true /\ (a = 0%nat \/ is_tick s (a - 1) = false)
    /\ exists c, find_close (List.length s) s (tick_run s a) (a + tick_run s a) = Some c
                 /\ b = (c + tick_run s a)%nat.
Proof.
  induction fuel as [|f IH]; intros i a b H Hinv; simpl in H; [contradiction|].
  destruct (i <? List.length s)%nat; [|contradiction].
  destruct (is_tick s i) eqn:Et.
  - destruct (find_close (List.length s) s (tick_run s i) (i + tick_run s i)) as [c|] eqn:Ec;
      [|contradiction].
    destruct H as [E|H].
    + injection E as <- <-. split; [exact Et|]. split; [exact (Hinv eq_refl)|].
      exists c. auto.
    + apply (IH _ _ _ H). intro Ht.
      apply find_close_bounds in Ec as [_ [_ Hr]].
      rewrite <- Hr, tick_run_end in Ht. discriminate.
  - apply (IH _ _ _ H). intros _. right. replace (i + 1 - 1)%nat with i by lia. exact Et.
Qed.

(** X2: every inline code range [a, b) starts at a run of n >= 1 backticks
    not preceded by a backtick, and ends right after the first later run of
    exactly n backticks (not preceded by a backtick) starting at or after
    a + n. *)
Theorem inline_range_delimiters (s : jstr) (a b : nat) :
  In (a, b) (inlineBacktickRanges s) ->
  let n := tick_run s a in
  (1 <= n)%nat /\ (a = 0%nat \/ is_tick s (a - 1) = false)
  /\ exists c, b = (c + n)%nat /\ (a + n <= c)%nat
     /\ tick_run s c = n /\ is_tick s (c - 1) = false
     /\ (forall c', (a + n <= c' < c)%nat -> is_tick s c' = true -> is_tick s (c' - 1) = false ->
           tick_run s c' <> n).
Proof.
  intros H n. apply scan_ticks_found in H as [Ht [Ha [c [Hc ->]]]]; [|intros _; left; reflexivity].
  split; [apply is_tick_run_pos; exact Ht|]. split; [exact Ha|].
  exists c. split; [reflexivity|].
  assert (Hj : is_tick s (a + tick_run s a) = true -> (0 < a + tick_run s a)%nat /\ is_tick s (a + tick_run s a - 1) = false)
    by (rewrite tick_run_end; discriminate).
  destruct (find_close_sound _ _ _ _ _ Hj Hc) as [Hle [_ [Hp Hr]]].
  split; [exact Hle|]. split; [exact Hr|]. split; [exact Hp|].
  exact (find_close_first _ _ _ _ _ Hc Hj).
Qed.

Lemma firstn_length_firstn {A} (k : nat) (l : list A) :
  firstn (List.length (firstn k l)) l = firstn k l.
Proof.
  rewrite length_firstn. destruct (Nat.le_ge_cases k (List.length l)).
  - rewrite Nat.min_l by lia. reflexivity.
  - rewrite Nat.min_r by lia. rewrite firstn_all, firstn_all2 by lia. reflexivity.
Qed.

Lemma slice_bound {A} (k : nat) (l m : list A) :
  m <> [] -> firstn (List.length m) (skipn k l) = m -> (k + List.length m <= List.length l)%nat.
Proof.
  intros Hne H. destruct m as [|x m]; [congruence|].
  apply (f_equal (@List.length A)) in H. rewrite length_firstn, length_skipn in H.
  cbn [List.length] in *. lia.
Qed.

Lemma manual_scan_pos (op cl : Z) (fuel i : nat) (l : jstr) (j : nat) (m : jstr) :
  In (j, m) (manual_scan op cl fuel i l) ->
  (i <= j)%nat /\ firstn (List.length m) (skipn (j - i) l) = m.
Proof.
  revert i l. induction fuel as [|f IH]; intros i l H; [contradiction|].
  destruct l as [|c l']; [contradiction|].
  cbn [manual_scan] in H.
  destruct (parse_notation op cl (c :: l')) as [[[len base] rs]|].
  - destruct H as [E|H].
    + injection E as <- <-. rewrite Nat.sub_diag. split; [lia|]. apply firstn_length_firstn.
    + apply IH in H as [Hle Hm]. split; [lia|].
      replace (j - i)%nat with ((j - (i + len)) + len)%nat by lia.
      rewrite <- skipn_skipn. exact Hm.
  - apply IH in H as [Hle Hm]. split; [lia|].
    replace (j - i)%nat with (S (j - S i)) by lia. exact Hm.
Qed.

Lemma auto_scan_pos (fuel i : nat) (l : jstr) (j : nat) (m : jstr) :
  In (j, m) (auto_scan fuel i l) ->
  (i <= j)%nat /\ firstn (List.length m) (skipn (j - i) l) = m.
Proof.
  revert i l. induction fuel as [|f IH]; intros i l H; [contradiction|].
  destruct l as [|c l']; [contradiction|].
  cbn [auto_scan] in H.
  destruct (is_auto_quick_char c).
  - destruct H as [E|H].
    + injection E as <- <-. rewrite Nat.sub_diag. split; [lia|]. apply firstn_length_firstn.
    + apply IH in H as [Hle Hm]. split; [lia|].
      set (n := count_while is_auto_quick_char (c :: l')) in *.
      replace (j - i)%nat with ((j - (i + n)) + n)%nat by lia.
      rewrite <- skipn_skipn. exact Hm.
  - apply IH in H as [Hle Hm]. split; [lia|].
    replace (j - i)%nat with (S (j - S i)) by lia. exact Hm.
Qed.

Lemma matches_pos (style : NotationStyle) (text : jstr) (j : nat) (m : jstr) :
  In (j, m) (manual_matches style text) \/ In (j, m) (auto_matches text) ->
  firstn (List.length m) (skipn j text) = m.
Proof.
  unfold manual_matches, auto_matches. intros [H|H].
  - destruct (brackets style) as [[op cl]|]; [|contradiction].
    apply manual_scan_pos in H as [_ Hm]. rewrite Nat.sub_0_r in Hm. exact Hm.
  - apply auto_scan_pos in H as [_ Hm]. rewrite Nat.sub_0_r in Hm. exact Hm.
Qed.

Lemma add_match_in_line zones cs from text (mt : nat * jstr) d :
  firstn (List.length (snd mt)) (skipn (fst mt) text) = snd mt ->
  cs = inlineBacktickRanges text ->
  In d (add_match zones cs from mt) -> deco_in_line text from d.
Proof.
  destruct mt as [rel m0]. simpl. intros Hm -> H. unfold add_match in H.
  destruct m0 as [|c m0']; [contradiction|].
  destruct (hitsCode _ _ _) eqn:Eh; [contradiction|].
  destruct (existsb _ zones); [contradiction|].
  destruct H as [<-|[]].
  exists rel, (c :: m0'). split; [reflexivity|]. split; [discriminate|]. auto.
Qed.

Lemma line_decorations_in_line style zones from text d :
  In d (line_decorations style zones from text) -> deco_in_line text from d.
Proof.
  unfold line_decorations. rewrite in_app_iff, !in_flat_map.
  intros [[mt [Hm Hd]]|[mt [Hm Hd]]]; destruct mt as [j m];
    apply (add_match_in_line zones (inlineBacktickRanges text) from text (j, m)); auto;
    apply (matches_pos style); auto.
Qed.

Lemma line_from_S (L : list jstr) (k : nat) (t : jstr) :
  nth_error L k = Some t -> line_from L (S (S k)) = line_from L (S k) + zlen t + 1.
Proof.
  intro H. unfold line_from. cbn [Nat.sub]. rewrite Nat.sub_0_r.
  rewrite (firstn_S_snoc L k t H), fold_left_app. reflexivity.
Qed.

Lemma walk_in_line style zones vTo (L : list jstr) :
  forall rest k fence d,
    skipn k L = rest ->
    In d (walk_decos (walk style zones vTo rest (S k) (line_from L (S k)) fence)) ->
    exists n text, nth_error L (n - 1) = Some text /\ deco_in_line text (line_from L n) d.
Proof.
  induction rest as [|t rest' IH]; intros k fence d Hsk Hin; simpl in Hin; [contradiction|].
  apply skipn_cons_nth in Hsk as [Hnth Hsk].
  destruct (line_from L (S k) <=? vTo); [|contradiction].
  cbn [walk_decos flat_map] in Hin. rewrite in_app_iff in Hin.
  destruct Hin as [Hin|Hin].
  - destruct (negb _ && AUTO_QUICK_test t); [|contradiction].
    exists (S k), t. rewrite Nat.sub_succ, Nat.sub_0_r. split; [exact Hnth|].
    exact (line_decorations_in_line _ _ _ _ _ Hin).
  - destruct (line_from L (S k) + zlen t >=? vTo); [contradiction|].
    rewrite <- (line_from_S L k t Hnth) in Hin.
    exact (IH (S k) _ d Hsk Hin).
Qed.

Lemma build_in_line style zones view d :
  In d (build_with_zones style zones view) ->
  exists n text, nth_error (doc_lines view) (n - 1) = Some text
                 /\ deco_in_line text (line_from (doc_lines view) n) d.
Proof.
  unfold build_with_zones. destruct (AUTO_QUICK_test _); [|contradiction].
  unfold visited_lines. intro Hin.
  set (L := doc_lines view) in *.
  set (first := lineAt_number L 0 1 (visFrom view)) in *.
  assert (Hf : first = S (first - 1)).
  { pose proof (lineAt_number_ge L 0 1 (visFrom view)). subst first. lia. }
  rewrite Hf in Hin at 2 3.
  exact (walk_in_line style zones (visTo view) L _ (first - 1) _ d eq_refl Hin).
Qed.

(** X3: every decoration [buildDecorations] produces lies within one line
    of the document, is non-empty, and overlaps no inline code range of that
    line. *)
Theorem decorations_within_line_outside_code (view : EditorView) (style : NotationStyle)
    (f t : Z) (m : jstr) :
  In (f, t, m) (buildDecorations view style) ->
  exists n text, nth_error (doc_lines view) (n - 1) = Some text
    /\ line_from (doc_lines view) n <= f < t
    /\ t <= line_from (doc_lines view) n + zlen text
    /\ forall a b, In (a, b) (inlineBacktickRanges text) ->
         overlaps f t (line_from (doc_lines view) n + Z.of_nat a)
                      (line_from (doc_lines view) n + Z.of_nat b) = false.
Proof.
  intro H. apply build_in_line in H as [n [text [Hn [rel [m' [E [Hne [Hm Hc]]]]]]]].
  injection E as -> -> ->.
  exists n, text. split; [exact Hn|].
  pose proof (slice_bound _ _ _ Hne Hm) as Hb.
  destruct m' as [|c m'']; [congruence|]. cbn [List.length] in *.
  unfold zlen. split; [lia|]. split; [lia|].
  intros a b Hab. unfold hitsCode in Hc.
  assert (Hx : overlaps (Z.of_nat rel) (Z.of_nat (rel + S (List.length m''))) (Z.of_nat a) (Z.of_nat b) = false).
  { destruct (overlaps _ _ _ _) eqn:Eo; [|reflexivity].
    rewrite <- Hc. symmetry. apply existsb_exists. exists (a, b). auto. }
  unfold overlaps in *.
  apply andb_false_iff in Hx. apply andb_false_iff.
  destruct Hx as [Hx|Hx]; [left|right]; apply Z.ltb_ge in Hx; apply Z.ltb_ge; lia.
Qed.

Lemma line_offset_shift (l : list jstr) (a : Z) :
  fold_left (fun acc t => acc + zlen t + 1) l a = a + fold_left (fun acc t => acc + zlen t + 1) l 0.
Proof.
  revert a. induction l as [|x l IH]; intro a; cbn [fold_left]; [lia|].
  rewrite (IH (a + zlen x + 1)), (IH (0 + zlen x + 1)). lia.
Qed.

Lemma line_offset_nonneg (l : list jstr) : 0 <= fold_left (fun acc t => acc + zlen t + 1) l 0.
Proof.
  induction l as [|x l IH]; cbn [fold_left]; [lia|].
  rewrite line_offset_shift. unfold zlen in *. lia.
Qed.

Lemma doc_offset (L : list jstr) (k : nat) (t : jstr) :
  nth_error L k = Some t ->
  exists r, skipn (Z.to_nat (fold_left (fun acc t => acc + zlen t + 1) (firstn k L) 0))
                  (doc_string L) = t ++ r.
Proof.
  revert k. induction L as [|x L IH]; intros [|k] H; simpl in H; try discriminate.
  - injection H as ->. simpl. destruct L as [|y L]; [exists []; symmetry; apply app_nil_r|].
    eexists. reflexivity.
  - destruct (IH k H) as [r Hr]. exists r.
    cbn [firstn fold_left]. rewrite line_offset_shift.
    pose proof (line_offset_nonneg (firstn k L)).
    destruct L as [|y L]; [destruct k; discriminate|].
    change (doc_string (x :: y :: L)) with (x ++ NEWLINE :: doc_string (y :: L)).
    set (o := fold_left (fun acc t => acc + zlen t + 1) (firstn k (y :: L)) 0) in *.
    replace (Z.to_nat (0 + zlen x + 1 + o)) with (S (Z.to_nat o) + List.length x)%nat
      by (unfold zlen; lia).
    rewrite <- skipn_skipn, skipn_app, skipn_all, Nat.sub_diag. simpl. exact Hr.
Qed.

(** X4: the matched text of every decoration is exactly the document text
    between its [from] and [to] offsets. *)
Theorem decorations_replace_their_text (view : EditorView) (style : NotationStyle)
    (f t : Z) (m : jstr) :
  In (f, t, m) (buildDecorations view style) ->
  0 <= f < t
  /\ firstn (Z.to_nat (t - f)) (skipn (Z.to_nat f) (doc_string (doc_lines view))) = m.
Proof.
  intro H. apply build_in_line in H as [n [text [Hn [rel [m' [E [Hne [Hm Hc]]]]]]]].
  injection E as -> -> ->.
  set (L := doc_lines view) in *.
  destruct (doc_offset L (n - 1) text Hn) as [r Hr].
  assert (HL : line_from L n = fold_left (fun acc t => acc + zlen t + 1) (firstn (n - 1) L) 0)
    by reflexivity.
  rewrite HL. pose proof (line_offset_nonneg (firstn (n - 1) L)).
  set (o := fold_left (fun acc t => acc + zlen t + 1) (firstn (n - 1) L) 0) in *.
  pose proof (slice_bound _ _ _ Hne Hm) as Hb.
  destruct m' as [|c m'']; [congruence|]. cbn [List.length] in *.
  split; [lia|].
  replace (Z.to_nat (o + Z.of_nat (rel + S (List.length m'')) - (o + Z.of_nat rel)))
    with (S (List.length m'')) by lia.
  replace (Z.to_nat (o + Z.of_nat rel)) with (rel + Z.to_nat o)%nat by lia.
  rewrite <- skipn_skipn, Hr, skipn_app.
  replace (rel - List.length text)%nat with 0%nat by lia. rewrite skipn_O.
  rewrite firstn_app, length_skipn.
  replace (S (List.length m'') - (List.length text - rel))%nat with 0%nat by lia.
  rewrite firstn_O, app_nil_r. exact Hm.
Qed.

Lemma count_while_repeat (c : Z) (k : nat) (rest : jstr) :
  count_while (Z.eqb c) (repeat c k ++ rest) = (k + count_while (Z.eqb c) rest)%nat.
Proof. induction k as [|k IH]; simpl; [reflexivity|]. rewrite Z.eqb_refl, IH. reflexivity. Qed.

Lemma firstn_count_while_eq (c : Z) (l : jstr) :
  firstn (count_while (Z.eqb c) l) l = repeat c (count_while (Z.eqb c) l).
Proof.
  induction l as [|x l IH]; simpl; [reflexivity|].
  destruct (Z.eqb c x) eqn:E; simpl; [|reflexivity].
  apply Z.eqb_eq in E. subst x. rewrite IH. reflexivity.
Qed.

Lemma skipn_repeat_app (c : Z) (k : nat) (rest : jstr) : skipn k (repeat c k ++ rest) = rest.
Proof. induction k; simpl; auto. Qed.

Lemma trimStart_ws_app (ws t : jstr) :
  forallb is_js_ws ws = true -> trimStart (ws ++ t) = trimStart t.
Proof.
  unfold trimStart. induction ws as [|w ws IH]; simpl; [reflexivity|].
  intro H. apply andb_true_iff in H as [Hw H]. rewrite Hw. exact (IH H).
Qed.

Lemma info_string_fence_line (ws : jstr) (mk : Z) (k : nat) (c : Z) (info : jstr) :
  forallb is_js_ws ws = true -> (mk = BACKTICK \/ mk = TILDE) -> (3 <= k)%nat ->
  c <> mk -> is_js_ws c = false ->
  lineTogglesFence (ws ++ repeat mk k ++ c :: info) = false.
Proof.
  intros Hws Hmk Hk Hc Hcw. unfold lineTogglesFence.
  rewrite trimStart_ws_app by exact Hws.
  assert (Hmkws : is_js_ws mk = false) by (destruct Hmk as [->| ->]; reflexivity).
  destruct k as [|k']; [lia|].
  unfold trimStart. cbn [repeat app drop_while]. rewrite Hmkws.
  assert (Hm : (mk =? BACKTICK) || (mk =? TILDE) = true)
    by (destruct Hmk as [->| ->]; reflexivity).
  rewrite Hm.
  change (mk :: repeat mk k' ++ c :: info) with (repeat mk (S k') ++ c :: info).
  rewrite count_while_repeat. cbn [count_while].
  assert (E : Z.eqb mk c = false) by (apply Z.eqb_neq; congruence).
  rewrite E, Nat.add_0_r, skipn_repeat_app, Hcw. apply andb_false_r.
Qed.

Lemma fence_before_app (A B : list jstr) (j : nat) :
  fence_before (A ++ B) (List.length A + j)
  = fold_left (fun b t => if lineTogglesFence t then negb b else b) (firstn j B)
      (fence_before A (List.length A)).
Proof.
  unfold fence_before. rewrite firstn_app_2, firstn_all, fold_left_app. reflexivity.
Qed.

Lemma fence_fold_quiet (l : list jstr) (b : bool) :
  Forall (fun t => lineTogglesFence t = false) l ->
  fold_left (fun b t => if lineTogglesFence t then negb b else b) l b = b.
Proof.
  intro H. revert b. induction H as [|t l Ht H IH]; intro b; simpl; [reflexivity|].
  rewrite Ht. apply IH.
Qed.

Lemma Forall_firstn' {A} (P : A -> Prop) (l : list A) (n : nat) :
  Forall P l -> Forall P (firstn n l).
Proof.
  intro H. revert n. induction H as [|x l Hx H IH]; intros [|n]; simpl; constructor; auto.
Qed.

(** X6: a fence opener followed directly by an info string ([```ts]) does
    not toggle the fence state, so the lines of its body stay in the state
    before the block, and the closing fence inverts that state. *)
Theorem info_string_block_inverts_fence_state (pre body post : list jstr) (mk : Z) (k : nat)
    (c : Z) (info closer : jstr) :
  (mk = BACKTICK \/ mk = TILDE) -> (3 <= k)%nat -> c <> mk -> is_js_ws c = false ->
  Forall (fun t => lineTogglesFence t = false) body -> lineTogglesFence closer = true ->
  let L := (pre ++ (repeat mk k ++ c :: info) :: body ++ closer :: post)%list in
  (forall i, (i <= S (List.length body))%nat ->
     fence_before L (List.length pre + i) = fence_before pre (List.length pre))
  /\ fence_before L (List.length pre + S (S (List.length body)))
     = negb (fence_before pre (List.length pre)).
Proof.
  intros Hmk Hk Hc Hcw Hbody Hclose L.
  assert (Hop : lineTogglesFence (repeat mk k ++ c :: info) = false)
    by exact (info_string_fence_line [] mk k c info eq_refl Hmk Hk Hc Hcw).
  unfold L. split.
  - intros i Hi. rewrite fence_before_app. destruct i as [|i]; [reflexivity|].
    cbn [firstn fold_left]. rewrite Hop.
    rewrite firstn_app.
    apply fence_fold_quiet.
    apply Forall_app. split; [apply Forall_firstn'; exact Hbody|].
    replace (i - List.length body)%nat with 0%nat by lia. constructor.
  - rewrite fence_before_app.
    change (firstn (S (S (List.length body))) ((repeat mk k ++ c :: info) :: body ++ closer :: post))
      with ((repeat mk k ++ c :: info) :: firstn (S (List.length body)) (body ++ closer :: post)).
    cbn [fold_left]. rewrite Hop.
    rewrite firstn_app, (firstn_all2 body) by lia.
    replace (S (List.length body) - List.length body)%nat with 1%nat by lia.
    cbn [firstn]. rewrite fold_left_app, (fence_fold_quiet body) by exact Hbody.
    cbn [fold_left]. rewrite Hclose. reflexivity.
Qed.

Lemma editorViewToPath_snoc (leaves : list Leaf) (x : Leaf) (ev : ViewRef) :
  editorViewToPath (leaves ++ [x]) ev
  = match leaf_cm x with
    | Some cm => if Nat.eqb cm ev then leaf_path x else editorViewToPath leaves ev
    | None => editorViewToPath leaves ev
    end.
Proof. unfold editorViewToPath. rewrite fold_left_app. reflexivity. Qed.

Lemma editorViewToPath_last (pre post : list Leaf) (l : Leaf) (ev : ViewRef) :
  leaf_cm l = Some ev -> Forall (fun l' => leaf_cm l' <> Some ev) post ->
  editorViewToPath (pre ++ l :: post) ev = leaf_path l.
Proof.
  intros Hl Hpost. induction post as [|x post IH] using rev_ind.
  - rewrite editorViewToPath_snoc, Hl, Nat.eqb_refl. reflexivity.
  - apply Forall_app in Hpost as [Hpost Hx]. inversion Hx as [|? ? Hx' _]; subst.
    replace (pre ++ l :: post ++ [x]) with ((pre ++ l :: post) ++ [x])
      by (rewrite <- app_assoc; reflexivity).
    rewrite editorViewToPath_snoc, (IH Hpost).
    destruct (leaf_cm x) as [cm|]; [|reflexivity].
    destruct (Nat.eqb cm ev) eqn:E; [|reflexivity].
    apply Nat.eqb_eq in E. subst cm. contradiction.
Qed.

Lemma editorViewToPath_some (leaves : list Leaf) (ev : ViewRef) (p : string) :
  editorViewToPath leaves ev = Some p ->
  exists pre l post, leaves = pre ++ l :: post /\ leaf_cm l = Some ev
    /\ Forall (fun l' => leaf_cm l' <> Some ev) post /\ leaf_path l = Some p.
Proof.
  induction leaves as [|x leaves IH] using rev_ind; [discriminate|].
  rewrite editorViewToPath_snoc. intro H.
  destruct (leaf_cm x) as [cm|] eqn:Ecm.
  - destruct (Nat.eqb cm ev) eqn:E.
    + apply Nat.eqb_eq in E. subst cm. exists leaves, x, []. auto.
    + destruct (IH H) as [pre [l [post [-> [Hl [Hpost Hp]]]]]].
      exists pre, l, (post ++ [x]). rewrite <- app_assoc. split; [reflexivity|].
      split; [exact Hl|]. split; [|exact Hp].
      apply Forall_app. split; [exact Hpost|]. constructor; [|constructor].
      rewrite Ecm. intro E'. injection E' as ->. rewrite Nat.eqb_refl in E. discriminate.
  - destruct (IH H) as [pre [l [post [-> [Hl [Hpost Hp]]]]]].
    exists pre, l, (post ++ [x]). rewrite <- app_assoc. split; [reflexivity|].
    split; [exact Hl|]. split; [|exact Hp].
    apply Forall_app. split; [exact Hpost|]. constructor; [|constructor].
    rewrite Ecm. discriminate.
Qed.

(** X7: [editorViewToPath] gives the path of the last leaf whose editor is
    the given view. *)
Theorem editorViewToPath_last_host (pre post : list Leaf) (l : Leaf) (ev : ViewRef) :
  leaf_cm l = Some ev -> Forall (fun l' => leaf_cm l' <> Some ev) post ->
  editorViewToPath (pre ++ l :: post) ev = leaf_path l.
Proof. exact (editorViewToPath_last pre post l ev). Qed.

(** X8: [shouldSkipForEditorView] is true exactly when the last leaf
    hosting the view has a non-empty path whose frontmatter turns the plugin
    off ([shouldSkipByPath]). *)
Theorem shouldSkipForEditorView_decision (cache : MetadataCache) (leaves : list Leaf) (ev : ViewRef) :
  shouldSkipForEditorView cache leaves ev = true
  <-> exists pre l post p, leaves = pre ++ l :: post /\ leaf_cm l = Some ev
        /\ Forall (fun l' => leaf_cm l' <> Some ev) post
        /\ leaf_path l = Some p /\ p <> EmptyString /\ shouldSkipByPath cache p = true.
Proof.
  unfold shouldSkipForEditorView. split.
  - destruct (editorViewToPath leaves ev) as [p|] eqn:E; [|discriminate].
    destruct (String.eqb p EmptyString) eqn:Ep; [discriminate|]. intro Hs.
    destruct (editorViewToPath_some leaves ev p E) as [pre [l [post [Hl [Hc [Hpost Hp]]]]]].
    exists pre, l, post, p. repeat split; auto. apply String.eqb_neq. exact Ep.
  - intros [pre [l [post [p [-> [Hc [Hpost [Hp [Hne Hs]]]]]]]]].
    rewrite (editorViewToPath_last pre post l ev Hc Hpost), Hp.
    apply String.eqb_neq in Hne. rewrite Hne. exact Hs.
Qed.

Lemma subseq_nil_l {A} (l : list A) : subseq [] l.
Proof. induction l; constructor; auto. Qed.

Lemma subseq_app {A} (a1 a2 b1 b2 : list A) :
  subseq a1 b1 -> subseq a2 b2 -> subseq (a1 ++ a2) (b1 ++ b2).
Proof.
  intros H1 H2. induction H1; simpl; [exact H2|apply subseq_skip; exact IHsubseq|apply subseq_take; exact IHsubseq].
Qed.

Lemma collect_go_eq (tag : string) (ancs : list string) (kids : list Node) :
  (fix go (ks : list Node) : list (list string * jstr) :=
     match ks with
     | [] => []
     | k :: ks' => (collectTextNodes (tag :: ancs) k ++ go ks')%list
     end) kids
  = flat_map (collectTextNodes (tag :: ancs)) kids.
Proof. induction kids as [|k ks IH]; simpl; [reflexivity|]. rewrite IH. reflexivity. Qed.

(** X9: the texts [collectTextNodes] collects form a subsequence of the
    text nodes of the block, in document order, and none of them is blank. *)
Lemma collect_subseq (n : Node) :
  forall ancs, subseq (map snd (collectTextNodes ancs n)) (all_texts n)
               /\ Forall (fun v => trim_nonempty v = true) (map snd (collectTextNodes ancs n)).
Proof.
  induction n as [v|tag kids IHk|] using Node_ind'; intro ancs.
  - cbn [collectTextNodes all_texts]. destruct (trim_nonempty v) eqn:E; simpl.
    + split; [constructor; constructor|]. constructor; [exact E|constructor].
    + split; [constructor; constructor|constructor].
  - cbn [collectTextNodes all_texts].
    destruct (isSkippableElement tag); [split; [apply subseq_nil_l|constructor]|].
    destruct (closest_ruby (tag :: ancs)); [split; [apply subseq_nil_l|constructor]|].
    rewrite collect_go_eq.
    induction IHk as [|k ks Hk _ IH]; simpl; [split; constructor|].
    rewrite map_app. destruct (Hk (tag :: ancs)) as [H1 H2]. destruct IH as [H3 H4].
    split; [apply subseq_app; auto|apply Forall_app; auto].
  - simpl. split; constructor.
Qed.

Lemma lower_ruby_not_skippable (tag : string) :
  isSkippableElement tag = false -> String.eqb (lower tag) "ruby" = false.
Proof.
  unfold isSkippableElement. intro H. repeat (apply orb_false_iff in H as [H ?]). assumption.
Qed.

(** X10: with no [ruby] ancestor and no skippable element in the block,
    [collectTextNodes] collects exactly the non-blank text nodes, in order. *)
Lemma collect_complete (n : Node) :
  forall ancs, closest_ruby ancs = false -> no_skippable n = true ->
    map snd (collectTextNodes ancs n) = filter trim_nonempty (all_texts n).
Proof.
  induction n as [v|tag kids IHk|] using Node_ind'; intros ancs Hr Hn.
  - cbn [collectTextNodes all_texts filter]. destruct (trim_nonempty v); reflexivity.
  - cbn [no_skippable] in Hn. apply andb_true_iff in Hn as [Ht Hk].
    apply negb_true_iff in Ht.
    cbn [collectTextNodes all_texts]. rewrite Ht.
    assert (Hr' : closest_ruby (tag :: ancs) = false).
    { unfold closest_ruby. cbn [existsb]. rewrite lower_ruby_not_skippable by exact Ht. exact Hr. }
    rewrite Hr', collect_go_eq.
    induction IHk as [|k ks Hk' _ IH]; simpl; [reflexivity|].
    simpl in Hk. apply andb_true_iff in Hk as [Hk1 Hk2].
    rewrite map_app, filter_app, (Hk' _ Hr' Hk1), (IH Hk2). reflexivity.
  - reflexivity.
Qed.

Lemma NotationStyle_eqb_iff (a b : NotationStyle) : NotationStyle_eqb a b = true <-> a = b.
Proof. destruct a, b; simpl; split; congruence. Qed.

(** X11: after [saveSettings] merges a patch, loading the saved data gives
    back the new settings, in which each field is the patched value if present
    and the old one otherwise. *)
Theorem saved_settings_reload (s : PluginSettings) (patch : SettingsPatch) :
  let '(next, data, _) := saveSettings s patch in
  loadSettings (Some data) = next
  /\ readingMode next = match p_readingMode patch with Some b => b | None => readingMode s end
  /\ editingMode next = match p_editingMode patch with Some b => b | None => editingMode s end
  /\ notationStyle next
     = match p_notationStyle patch with Some st => st | None => notationStyle s end.
Proof. destruct s, patch; repeat split. Qed.

(** X12: saving settings refreshes Reading Mode exactly when the patch
    changes [readingMode] or [notationStyle]. *)
Theorem reading_refresh_iff_change (s : PluginSettings) (patch : SettingsPatch) :
  let '(_, _, eff) := saveSettings s patch in
  refreshReading eff = true
  <-> (exists b, p_readingMode patch = Some b /\ b <> readingMode s)
      \/ (exists st, p_notationStyle patch = Some st /\ st <> notationStyle s).
Proof.
  destruct s as [r e st], patch as [pr pe pst]. simpl.
  rewrite orb_true_iff, !negb_true_iff.
  assert (Hb : forall x y : bool, Bool.eqb x y = false <-> x <> y)
    by (intros [] []; simpl; split; congruence).
  assert (Hs : forall x y, NotationStyle_eqb x y = false <-> x <> y).
  { intros x y. rewrite <- NotationStyle_eqb_iff. destruct (NotationStyle_eqb x y); split; congruence. }
  rewrite Hb, Hs.
  destruct pr as [b|], pst as [st'|]; split; intros H;
    repeat match goal with
           | H : _ \/ _ |- _ => destruct H as [H|H]
           | H : exists _, _ |- _ => destruct H as [? [H' ?]]; try discriminate H'; injection H' as <-
           end; eauto; try congruence.
Qed.

Lemma append_assoc' (a b c : string) : append a (append b c) = append (append a b) c.
Proof. induction a as [|x a IH]; simpl; [reflexivity|]. rewrite IH. reflexivity. Qed.

Lemma append_empty_r (a : string) : append a EmptyString = a.
Proof. induction a as [|x a IH]; simpl; [reflexivity|]. rewrite IH. reflexivity. Qed.

Lemma byte_hex (n : nat) :
  (n <= 255)%nat ->
  padStart 2 "0"%char (toString16 n)
  = String (hex_digit (Nat.div n 16)) (String (hex_digit (Nat.modulo n 16)) EmptyString).
Proof.
  intro Hn. unfold toString16, padStart. cbn [hex_digits].
  destruct (Nat.ltb n 16) eqn:E.
  - apply Nat.ltb_lt in E. cbn [String.length]. simpl (2 - 1)%nat. cbn [str_repeat append].
    rewrite Nat.div_small by exact E. rewrite Nat.mod_small by exact E. reflexivity.
  - apply Nat.ltb_ge in E.
    destruct n as [|n']; [lia|]. cbn [hex_digits].
    assert (Hq : (Nat.div (S n') 16 < 16)%nat) by (apply Nat.Div0.div_lt_upper_bound; lia).
    apply Nat.ltb_lt in Hq. rewrite Hq. reflexivity.
Qed.

Lemma sha256Hex_fold (bytes : list Byte.byte) (acc : string) :
  fold_left (fun hex b => append hex (padStart 2 "0"%char (toString16 (Byte.to_nat b)))) bytes acc
  = append acc (hex_encode bytes).
Proof.
  revert acc. induction bytes as [|b bs IH]; intro acc; simpl.
  - rewrite append_empty_r. reflexivity.
  - rewrite IH, byte_hex by apply Byte.to_nat_bounded.
    rewrite <- append_assoc'. reflexivity.
Qed.

Lemma sha256Hex_of_hex (bytes : list Byte.byte) : sha256Hex_of bytes = hex_encode bytes.
Proof. unfold sha256Hex_of. rewrite sha256Hex_fold. reflexivity. Qed.

(** X14: the hex loop of [sha256Hex] ([b.toString(16).padStart(2, '0')] per
    byte) is the lowercase two-digits-per-byte hex encoding. *)
Theorem sha256Hex_is_hex_encoding (bytes : list Byte.byte) : sha256Hex_of bytes = hex_encode bytes.
Proof. exact (sha256Hex_of_hex bytes). Qed.

Lemma hex_digit_lower (d : nat) : (d < 16)%nat -> is_lower_hex (hex_digit d) = true.
Proof.
  intro H. unfold is_lower_hex, hex_digit.
  destruct (Nat.ltb d 10) eqn:E; [apply Nat.ltb_lt in E|apply Nat.ltb_ge in E];
    rewrite nat_ascii_embedding by lia; apply orb_true_iff;
    [left|right]; apply andb_true_iff; split; apply Nat.leb_le; lia.
Qed.

Lemma hex_digit_inj (a b : nat) :
  (a < 16)%nat -> (b < 16)%nat -> hex_digit a = hex_digit b -> a = b.
Proof.
  intros Ha Hb H. apply (f_equal nat_of_ascii) in H. unfold hex_digit in H.
  destruct (Nat.ltb a 10) eqn:Ea, (Nat.ltb b 10) eqn:Eb;
    try apply Nat.ltb_lt in Ea; try apply Nat.ltb_lt in Eb;
    try apply Nat.ltb_ge in Ea; try apply Nat.ltb_ge in Eb;
    rewrite !nat_ascii_embedding in H by lia; lia.
Qed.

Lemma byte_div16 (n : nat) : (n <= 255)%nat -> (Nat.div n 16 < 16)%nat.
Proof. intro H. apply Nat.Div0.div_lt_upper_bound. lia. Qed.

Lemma byte_mod16 (n : nat) : (Nat.modulo n 16 < 16)%nat.
Proof. apply Nat.mod_upper_bound. lia. Qed.

(** X15: the hex string [sha256Hex] builds has two characters per byte,
    each a lowercase hex digit. *)
Theorem sha256Hex_format (bytes : list Byte.byte) :
  String.length (sha256Hex_of bytes) = (2 * List.length bytes)%nat
  /\ (forall i c, String.get i (sha256Hex_of bytes) = Some c -> is_lower_hex c = true).
Proof.
  unfold sha256Hex_of. rewrite sha256Hex_fold. cbn [append].
  induction bytes as [|b bs [IHl IHc]]; [split; [reflexivity|intros i c H; destruct i; discriminate]|].
  pose proof (Byte.to_nat_bounded b) as Hb.
  change (hex_encode (b :: bs)) with (String (hex_digit (Nat.div (Byte.to_nat b) 16))
    (String (hex_digit (Nat.modulo (Byte.to_nat b) 16)) (hex_encode bs))).
  split; [cbn [String.length List.length]; rewrite IHl; lia|].
  intros [|[|i]] c H; cbn [String.get] in H.
  - injection H as <-. exact (hex_digit_lower _ (byte_div16 _ Hb)).
  - injection H as <-. exact (hex_digit_lower _ (byte_mod16 _)).
  - exact (IHc i c H).
Qed.

(** X16: the hex loop of [sha256Hex] is injective: different byte arrays
    give different strings. *)
Theorem sha256Hex_injective (b1 b2 : list Byte.byte) :
  sha256Hex_of b1 = sha256Hex_of b2 -> b1 = b2.
Proof.
  rewrite !sha256Hex_of_hex. revert b2.
  induction b1 as [|x xs IH]; intros [|y ys] H; try discriminate; [reflexivity|].
  change (hex_encode (x :: xs)) with (String (hex_digit (Nat.div (Byte.to_nat x) 16))
    (String (hex_digit (Nat.modulo (Byte.to_nat x) 16)) (hex_encode xs))) in H.
  change (hex_encode (y :: ys)) with (String (hex_digit (Nat.div (Byte.to_nat y) 16))
    (String (hex_digit (Nat.modulo (Byte.to_nat y) 16)) (hex_encode ys))) in H.
  injection H as Hq Hr Hs.
  pose proof (Byte.to_nat_bounded x). pose proof (Byte.to_nat_bounded y).
  apply hex_digit_inj in Hq; [|exact (byte_div16 _ H)|exact (byte_div16 _ H0)].
  apply hex_digit_inj in Hr; [|exact (byte_mod16 _)|exact (byte_mod16 _)].
  assert (Hxy : Byte.to_nat x = Byte.to_nat y).
  { rewrite (Nat.div_mod_eq (Byte.to_nat x) 16), (Nat.div_mod_eq (Byte.to_nat y) 16).
    change (Byte.to_nat x / 16 = Byte.to_nat y / 16)%nat in Hq.
    change (Byte.to_nat x mod 16 = Byte.to_nat y mod 16)%nat in Hr.
    rewrite Hq, Hr. reflexivity. }
  assert (x = y).
  { pose proof (Byte.of_to_nat x) as Ex. rewrite Hxy, Byte.of_to_nat in Ex. congruence. }
  subst y. f_equal. exact (IH ys Hs).
Qed.

Section Fetch.
Variable request : nat -> string -> option ArrayBuffer.

Lemma attempt_loop_spec (url : string) (r : nat) :
  forall a k le ev k' res,
  attempt_loop request url a r k le = (ev, k', res) ->
  exists n, k' = (k + n)%nat /\ (n <= r)%nat /\ ev = attempt_events url a n /\
    match res with
    | inr d => (0 < n)%nat /\ request (k + n - 1)%nat url = Some d
               /\ (forall i, (S i < n)%nat -> request (k + i)%nat url = None)
    | inl le' => n = r /\ (forall i, (i < n)%nat -> request (k + i)%nat url = None)
                 /\ le' = (if Nat.eqb r 0 then le else Some (RequestFailed (k + n - 1)%nat url))
    end.
Proof.
  induction r as [|r IH]; intros a k le ev k' res H; simpl in H.
  - injection H as <- <- <-. exists O. repeat split; try lia; intros; lia.
  - destruct (request k url) as [d|] eqn:Ek.
    + injection H as <- <- <-. exists 1%nat. split; [lia|]. split; [lia|].
      split; [unfold attempt_events, attempt_step; simpl; rewrite app_nil_r; reflexivity|].
      split; [lia|]. split; [replace (k + 1 - 1)%nat with k by lia; exact Ek|].
      intros i Hi; lia.
    + destruct (attempt_loop request url (S a) r (S k) (Some (RequestFailed k url)))
        as [[ev0 k0] res0] eqn:E0.
      injection H as <- <- <-.
      destruct (IH _ _ _ _ _ _ E0) as [n0 [Hk0 [Hn0 [Hev0 Hres]]]].
      exists (S n0). split; [lia|]. split; [lia|].
      split; [unfold attempt_events; rewrite Hev0; simpl; unfold attempt_step;
              rewrite <- app_assoc; reflexivity|].
      assert (Hreq : forall i, (i < S n0)%nat -> (i = 0 \/ (i - 1 < n0 /\ request (k + i) url = request (S k + (i - 1)) url))%nat).
      { intros i Hi. destruct i; [left; reflexivity|right]. split; [lia|]. f_equal. lia. }
      destruct res0 as [le'|d].
      * destruct Hres as [-> [Hf ->]]. split; [reflexivity|]. split.
        -- intros i Hi. destruct i as [|i]; [rewrite Nat.add_0_r; exact Ek|].
           replace (k + S i)%nat with (S k + i)%nat by lia. apply Hf. lia.
        -- destruct r as [|r']; simpl.
           ++ replace (k + 1 - 1)%nat with k by lia. reflexivity.
           ++ do 2 f_equal. lia.
      * destruct Hres as [Hpos [Hd Hf]]. split; [lia|]. split.
        -- replace (k + S n0 - 1)%nat with (S k + n0 - 1)%nat by lia. exact Hd.
        -- intros i Hi. destruct i as [|i]; [rewrite Nat.add_0_r; exact Ek|].
           replace (k + S i)%nat with (S k + i)%nat by lia. apply Hf. lia.
Qed.


Lemma gets_app (e1 e2 : list Event) : gets (e1 ++ e2) = gets e1 ++ gets e2.
Proof. unfold gets. apply flat_map_app. Qed.

Lemma attempt_events_add (url : string) (a n m : nat) :
  attempt_events url a (n + m) = attempt_events url a n ++ attempt_events url (a + n) m.
Proof. unfold attempt_events. rewrite seq_app, flat_map_app. reflexivity. Qed.

Lemma gets_attempt_events (url : string) (n : nat) :
  forall a, gets (attempt_events url a n) = repeat url n.
Proof.
  induction n as [|n IH]; intro a; [reflexivity|].
  change (attempt_events url a (S n)) with (attempt_step url a ++ attempt_events url (S a) n).
  rewrite gets_app, IH. unfold attempt_step. rewrite gets_app.
  destruct (Nat.ltb 0 a); reflexivity.
Qed.

Lemma attempt_events_ends (url : string) (a n : nat) :
  (0 < n)%nat -> exists ev0, attempt_events url a n = ev0 ++ [EvGet url].
Proof.
  intro Hn. destruct n as [|n]; [lia|].
  replace (S n) with (n + 1)%nat by lia. rewrite attempt_events_add.
  exists (attempt_events url a n ++ (if Nat.ltb 0 (a + n) then [EvSleep (RETRY_BACKOFF_MS * 2 ^ (a + n - 1))%nat] else [])).
  unfold attempt_events at 2. simpl. rewrite app_nil_r. unfold attempt_step.
  rewrite <- app_assoc. reflexivity.
Qed.

Lemma firstn_repeat_le {A : Type} (x : A) (n m : nat) :
  (n <= m)%nat -> firstn n (repeat x m) = repeat x n.
Proof.
  revert m. induction n as [|n IH]; intros m H; [reflexivity|].
  destruct m as [|m]; [lia|]. simpl. rewrite IH by lia. reflexivity.
Qed.

Lemma last_app_cons {A : Type} (l1 l2 : list A) (d : A) :
  l2 <> [] -> last (l1 ++ l2) d = last l2 d.
Proof.
  intro H. induction l1 as [|x l1 IH]; [reflexivity|].
  rewrite <- app_comm_cons. simpl. rewrite IH.
  destruct (l1 ++ l2) eqn:E; [|reflexivity].
  apply app_eq_nil in E as [_ E]. contradiction.
Qed.

Lemma base_loop_spec (fileName : string) (bases : list string) :
  forall k le ev k' res,
  base_loop request fileName bases k le = (ev, k', res) ->
  let sched := schedule fileName bases in
  exists n, k' = (k + n)%nat
    /\ (exists rest, full_events fileName bases = ev ++ rest)
    /\ (ev = [] \/ exists ev0 u, ev = ev0 ++ [EvGet u])
    /\ gets ev = firstn n sched
    /\ (forall i, (i < n)%nat -> (S i < n \/ is_inl res = true)%nat ->
          request (k + i)%nat (nth i sched EmptyString) = None)
    /\ match res with
       | inr d => (0 < n)%nat /\ request (k + n - 1)%nat (nth (n - 1) sched EmptyString) = Some d
       | inl le' => n = List.length sched
                    /\ le' = match sched with
                             | [] => le
                             | _ => Some (RequestFailed (k + n - 1)%nat (last sched EmptyString))
                             end
       end.
Proof.
  induction bases as [|b bs IH]; intros k le ev k' res H; cbn [base_loop] in H.
  - injection H as <- <- <-. exists O. split; [lia|]. split; [exists []; reflexivity|].
    split; [left; reflexivity|]. split; [reflexivity|]. split; [intros i Hi; lia|].
    split; reflexivity.
  - set (u := join_url b fileName) in *.
    destruct (attempt_loop request u 0 (S PER_BASE_RETRIES) k le) as [[ev1 k1] res1] eqn:E1.
    destruct (attempt_loop_spec _ _ _ _ _ _ _ _ E1) as [n1 [Hk1 [Hn1 [Hev1 Hres1]]]].
    intro sched. unfold PER_BASE_RETRIES in *.
    assert (Hs : sched = repeat u 3 ++ schedule fileName bs) by reflexivity.
    assert (Hf : full_events fileName (b :: bs) = attempt_events u 0 3 ++ full_events fileName bs)
      by reflexivity.
    destruct res1 as [le1|d].
    + destruct Hres1 as [-> [Hfail1 Hle1]].
      destruct (base_loop request fileName bs k1 le1) as [[ev2 k2] res2] eqn:E2.
      simpl in H. injection H as <- <- <-.
      destruct (IH _ _ _ _ _ E2) as [n2 [Hk2 [[rest Hrest] [Hend [Hgets [Hfail2 Hres2]]]]]].
      exists (3 + n2)%nat. split; [lia|].
      split; [exists rest; rewrite Hf, Hrest, Hev1, app_assoc; reflexivity|].
      split.
      { right. destruct Hend as [->|[ev0 [w ->]]].
        - destruct (attempt_events_ends u 0 3) as [ev0 Ee]; [lia|].
          exists ev0, u. rewrite app_nil_r, Hev1. exact Ee.
        - exists (ev1 ++ ev0), w. rewrite app_assoc. reflexivity. }
      split; [rewrite gets_app, Hgets, Hev1, gets_attempt_events, Hs; reflexivity|].
      split.
      { intros i Hi Hlast. rewrite Hs. destruct (Nat.lt_ge_cases i 3) as [Hi3|Hi3].
        - rewrite app_nth1 by (rewrite repeat_length; exact Hi3).
          rewrite nth_repeat_lt by exact Hi3. apply Hfail1. exact Hi3.
        - rewrite app_nth2 by (rewrite repeat_length; exact Hi3). rewrite repeat_length.
          replace (k + i)%nat with (k1 + (i - 3))%nat by lia.
          apply Hfail2; [lia|]. destruct Hlast as [Hl|Hl]; [left; lia|right; exact Hl]. }
      destruct res2 as [le2|d].
      * destruct Hres2 as [Hn2 Hle2]. split; [rewrite Hs, length_app, repeat_length; lia|].
        rewrite Hle2, Hle1. rewrite Hs.
        destruct (schedule fileName bs) as [|x xs] eqn:Esch.
        -- simpl in Hn2. subst n2. simpl. do 2 f_equal; try lia.
        -- change (repeat u 3 ++ x :: xs) with (u :: u :: u :: x :: xs).
           rewrite <- Esch. do 2 f_equal; [lia|].
           change (u :: u :: u :: x :: xs) with (repeat u 3 ++ x :: xs).
           rewrite Esch. reflexivity.
      * destruct Hres2 as [Hpos Hd]. split; [lia|].
        rewrite Hs, app_nth2 by (rewrite repeat_length; lia). rewrite repeat_length.
        replace (k + (3 + n2) - 1)%nat with (k1 + n2 - 1)%nat by lia.
        replace (3 + n2 - 1 - 3)%nat with (n2 - 1)%nat by lia. exact Hd.
    + destruct Hres1 as [Hpos [Hd Hfail1]].
      simpl in H. injection H as <- <- <-.
      exists n1. split; [exact Hk1|].
      split.
      { exists (attempt_events u n1 (3 - n1) ++ full_events fileName bs).
        rewrite Hf, Hev1, app_assoc, <- attempt_events_add.
        replace (n1 + (3 - n1))%nat with 3%nat by (unfold PER_BASE_RETRIES in Hn1; lia).
        reflexivity. }
      split.
      { right. destruct (attempt_events_ends u 0 n1 Hpos) as [ev0 Ee].
        exists ev0, u. rewrite Hev1. exact Ee. }
      assert (Hn3 : (n1 <= 3)%nat) by (unfold PER_BASE_RETRIES in Hn1; lia).
      split.
      { rewrite Hev1, gets_attempt_events, Hs, firstn_app, repeat_length.
        replace (n1 - 3)%nat with O by lia. rewrite app_nil_r.
        rewrite firstn_repeat_le by exact Hn3. reflexivity. }
      assert (Hnth : forall i, (i < n1)%nat -> nth i sched EmptyString = u).
      { intros i Hi. rewrite Hs, app_nth1 by (rewrite repeat_length; lia).
        apply nth_repeat_lt. lia. }
      split.
      { intros i Hi [Hl|Hl]; [|discriminate]. rewrite Hnth by exact Hi. apply Hfail1. exact Hl. }
      split; [exact Hpos|]. rewrite Hnth by lia. exact Hd.
Qed.

End Fetch.

Lemma fetchWithFallback_base (request : nat -> string -> option ArrayBuffer)
  (fileName : string) (bases : list string) (k : nat) ev k' res :
  fetchWithFallback request fileName bases k = (ev, k', res) ->
  exists res0, base_loop request fileName bases k None = (ev, k', res0)
    /\ res = match res0 with
             | inr data => inr data
             | inl (Some e) => inl e
             | inl None => inl AllSourcesFailed
             end.
Proof.
  unfold fetchWithFallback. destruct (base_loop request fileName bases k None) as [[ev0 k0] res0].
  intro H. injection H as <- <- <-. exists res0. split; reflexivity.
Qed.

(** X17: [fetchWithFallback] requests every base three times in order and
    stops at the first request that succeeds, returning its data; when all
    fail it throws the error of the last request (or "All sources failed"
    when there is no base). *)
Theorem fetchWithFallback_first_success (request : nat -> string -> option ArrayBuffer)
  (fileName : string) (bases : list string) (k : nat) ev k' res :
  fetchWithFallback request fileName bases k = (ev, k', res) ->
  let sched := schedule fileName bases in
  let n := (k' - k)%nat in
  (k <= k')%nat /\ gets ev = firstn n sched /\
  match res with
  | inr d => (0 < n)%nat /\ request (k + n - 1)%nat (nth (n - 1) sched EmptyString) = Some d
             /\ (forall i, (S i < n)%nat -> request (k + i)%nat (nth i sched EmptyString) = None)
  | inl e => n = List.length sched
             /\ (forall i, (i < n)%nat -> request (k + i)%nat (nth i sched EmptyString) = None)
             /\ e = match sched with
                    | [] => AllSourcesFailed
                    | _ => RequestFailed (k' - 1)%nat (last sched EmptyString)
                    end
  end.
Proof.
  intros H sched n.
  destruct (fetchWithFallback_base _ _ _ _ _ _ _ H) as [res0 [Hb ->]].
  destruct (base_loop_spec _ _ _ _ _ _ _ _ Hb) as [m [Hk [_ [_ [Hg [Hf Hr]]]]]].
  fold sched in Hg, Hf, Hr.
  assert (Hn : n = m) by (unfold n; lia). rewrite Hn.
  split; [lia|]. split; [exact Hg|].
  destruct res0 as [[e|]|d].
  - destruct Hr as [Hl He]. split; [exact Hl|]. split; [intros i Hi; apply Hf; [exact Hi|right; reflexivity]|].
    destruct sched as [|x xs]; [discriminate He|]. injection He as ->. f_equal. lia.
  - destruct Hr as [Hl He]. split; [exact Hl|]. split; [intros i Hi; apply Hf; [exact Hi|right; reflexivity]|].
    destruct sched as [|x xs]; [reflexivity|discriminate He].
  - destruct Hr as [Hp Hd]. split; [exact Hp|]. split; [exact Hd|].
    intros i Hi. apply Hf; [lia|left; exact Hi].
Qed.

(** X18: the event log of [fetchWithFallback] is an initial part of the
    all-fail log, ending in a request; per base the retries wait 800 ms and
    then 1600 ms. *)
Theorem fetchWithFallback_backoff (request : nat -> string -> option ArrayBuffer)
  (fileName : string) (bases : list string) (k : nat) ev k' res :
  fetchWithFallback request fileName bases k = (ev, k', res) ->
  (exists rest, full_events fileName bases = ev ++ rest)
  /\ (ev = [] \/ exists ev0 u, ev = ev0 ++ [EvGet u])
  /\ (forall b, full_events fileName [b]
                = [EvGet (join_url b fileName); EvSleep 800; EvGet (join_url b fileName);
                   EvSleep 1600; EvGet (join_url b fileName)]).
Proof.
  intro H. destruct (fetchWithFallback_base _ _ _ _ _ _ _ H) as [res0 [Hb _]].
  destruct (base_loop_spec _ _ _ _ _ _ _ _ Hb) as [m [_ [Hp [He _]]]].
  split; [exact Hp|]. split; [exact He|]. intro b. reflexivity.
Qed.

Lemma append_inj_l (p a b : string) : append p a = append p b -> a = b.
Proof. induction p as [|c p IH]; simpl; [tauto|]. intro H. injection H. exact IH. Qed.

Lemma rel_path_inj (dir a b : string) : rel_path dir a = rel_path dir b -> a = b.
Proof. unfold rel_path. intro H. apply append_inj_l in H. injection H. tauto. Qed.

Lemma full_events_no_write (fileName : string) (bases : list string) e :
  In e (full_events fileName bases) -> match e with EvGet _ | EvSleep _ => True | _ => False end.
Proof.
  unfold full_events, attempt_events. intro H.
  apply in_flat_map in H as [b [_ H]]. apply in_flat_map in H as [i [_ H]].
  unfold attempt_step in H. apply in_app_or in H as [H|H].
  - destruct (Nat.ltb 0 i); simpl in H; [destruct H as [<-|[]]; exact I|contradiction].
  - destruct H as [<-|[]]. exact I.
Qed.

Lemma fetch_no_write request fileName bases k ev k' res e :
  fetchWithFallback request fileName bases k = (ev, k', res) ->
  In e ev -> match e with EvGet _ | EvSleep _ => True | _ => False end.
Proof.
  intros H Hin. destruct (fetchWithFallback_base _ _ _ _ _ _ _ H) as [res0 [Hb _]].
  destruct (base_loop_spec _ _ _ _ _ _ _ _ Hb) as [m [_ [[rest Hp] _]]].
  apply (full_events_no_write fileName bases). rewrite Hp. apply in_or_app. left. exact Hin.
Qed.

Lemma after_writes_cases (read : string -> option ArrayBuffer) (ev : list Event) (p : string) :
  ((forall d, ~ In (EvWrite p d) ev) /\ after_writes read ev p = read p)
  \/ (exists d, In (EvWrite p d) ev /\ after_writes read ev p = Some d).
Proof.
  revert read. induction ev as [|e ev IH]; intro read.
  - left. split; [intros d []|reflexivity].
  - unfold after_writes. cbn [fold_left]. fold (after_writes (match e with
      | EvWrite rel d => fun q => if String.eqb q rel then Some d else read q
      | _ => read end) ev).
    destruct (IH (match e with
      | EvWrite rel d => fun q => if String.eqb q rel then Some d else read q
      | _ => read end)) as [[Hn ->]|[d [Hd ->]]].
    + destruct e as [dir|ms|url|rel d];
        try (left; split; [intros d' [H|H]; [discriminate|exact (Hn d' H)]|reflexivity]).
      destruct (String.eqb_spec p rel) as [->|Hne].
      * right. exists d. split; [left; reflexivity|reflexivity].
      * left. split; [|reflexivity]. intros d' [H|H]; [injection H as -> _; contradiction|exact (Hn d' H)].
    + right. exists d. split; [right; exact Hd|reflexivity].
Qed.

Lemma names_in (m : JVal) (name : string) :
  In name (names m) -> In name (map fst (entries m)) /\ name <> "sources"%string.
Proof.
  unfold names. intro H.
  assert (Hp : forall l x, In x (sort_strings l) <-> In x l).
  { intros l x. unfold sort_strings. induction l as [|y l IHl]; [reflexivity|].
    simpl. rewrite <- IHl. generalize (fold_right insert_sorted [] l) as s.
    induction s as [|z s IHs]; simpl; [tauto|]. destruct (String.leb y z); simpl; [tauto|].
    rewrite IHs. tauto. }
  apply Hp, filter_In in H as [H1 H2]. split; [exact H1|].
  intro E. subst name. discriminate H2.
Qed.

Section Install.
Variable digest : ArrayBuffer -> ArrayBuffer.
Variable request : nat -> string -> option ArrayBuffer.
Variable write_ok : string -> bool.


Lemma install_loop_writes (m : JVal) (dir : string) (bases toInstall : list string) :
  forall k ev k' out, install_loop digest request write_ok m dir bases toInstall k = (ev, k', out) ->
  (forall rel data, In (EvWrite rel data) ev -> verified_write digest m dir toInstall rel data)
  /\ (out = Returned -> forall name, In name toInstall -> exists data, In (EvWrite (rel_path dir name) data) ev).
Proof.
  induction toInstall as [|name rest IH]; intros k ev k' out H; cbn [install_loop] in H.
  - injection H as <- <- <-. split; [intros rel data []|intros _ name []].
  - destruct (fetchWithFallback request name bases k) as [[ev1 k1] res] eqn:Ef.
    assert (Hnw : forall rel data, ~ In (EvWrite rel data) ev1)
      by (intros rel data Hin; exact (fetch_no_write _ _ _ _ _ _ _ _ Ef Hin)).
    destruct res as [e|data];
      [injection H as <- <- <-; split; [intros rel d Hin; destruct (Hnw _ _ Hin)|discriminate]|].
    destruct (prop m name) as [want|] eqn:Ew;
      [|injection H as <- <- <-; split; [intros rel d Hin; destruct (Hnw _ _ Hin)|discriminate]].
    destruct want eqn:Ewant;
      try (injection H as <- <- <-; split; [intros rel d Hin; destruct (Hnw _ _ Hin)|discriminate]);
      rewrite <- Ewant in *;
      (destruct (sha_ok digest data want) eqn:Es;
        [|injection H as <- <- <-; split; [intros rel d Hin; destruct (Hnw _ _ Hin)|discriminate]]);
      (destruct (size_ok data want) eqn:Ez;
        [|injection H as <- <- <-; split; [intros rel d Hin; destruct (Hnw _ _ Hin)|discriminate]]);
      (destruct (write_ok (rel_path dir name)) eqn:Eo;
        [|injection H as <- <- <-; split; [intros rel d Hin; destruct (Hnw _ _ Hin)|discriminate]]);
      cbn [negb] in H;
      (destruct (install_loop digest request write_ok m dir bases rest k1) as [[ev2 k2] out2] eqn:E2);
      injection H as <- <- <-;
      destruct (IH _ _ _ _ E2) as [IHw IHr];
      (split;
       [ intros rel d Hin; apply in_app_or in Hin as [Hin|[Hin|Hin]];
         [ destruct (Hnw _ _ Hin)
         | injection Hin as <- <-; exists name, want;
           repeat split; [left; reflexivity | exact Ew | subst want; discriminate | exact Es | exact Ez]
         | destruct (IHw _ _ Hin) as [n' [w' [Hn' Hrest]]]; exists n', w'; split; [right; exact Hn'|exact Hrest] ]
       | intros Hout n' [<-|Hn'];
         [ exists data; apply in_or_app; right; left; reflexivity
         | destruct (IHr Hout n' Hn') as [d Hd]; exists d; apply in_or_app; right; right; exact Hd ] ]).
Qed.




Lemma ensure_writes (m : JVal) cfg id de mk read k ev k' out :
  ensureDictInstalled digest request write_ok m cfg id de mk read k = (ev, k', out) ->
  (forall rel data, In (EvWrite rel data) ev ->
     verified_write digest m (dict_dir cfg id) (filter (needs_install digest read m (dict_dir cfg id)) (names m)) rel data)
  /\ (out = Returned -> isValidManifest m = true -> bases_of m <> Some [] ->
      forall name, In name (filter (needs_install digest read m (dict_dir cfg id)) (names m)) ->
      exists data, In (EvWrite (rel_path (dict_dir cfg id) name) data) ev).
Proof.
  unfold ensureDictInstalled. intro H.
  destruct (isValidManifest m) eqn:Ev; cbn [negb] in H;
    [|injection H as <- <- <-; split; [intros rel data []|intros _ Hc; discriminate Hc]].
  set (dir := dict_dir cfg id) in *.
  destruct de as [ex|]; [|injection H as <- <- <-; split; [intros rel data []|discriminate]].
  assert (Hmk : forall rel data, ~ In (EvWrite rel data) (if ex then [] else [EvMkdir dir]))
    by (intros rel data; destruct ex; simpl; [tauto|intros [Hc|[]]; discriminate Hc]).
  destruct (ex || mk) eqn:Eok; cbn [negb] in H;
    [|injection H as <- <- <-; split; [intros rel data Hin; destruct (Hmk _ _ Hin)|discriminate]].
  destruct (filter (needs_install digest read m dir) (names m)) as [|n0 ns] eqn:Ef.
  - injection H as <- <- <-. split; [intros rel data Hin; destruct (Hmk _ _ Hin)|].
    intros _ _ _ name [].
  - destruct (bases_of m) as [[|b bs]|] eqn:Eb;
      try (injection H as <- <- <-; split;
           [intros rel data Hin; destruct (Hmk _ _ Hin)|intros Hc _ Hb; first [discriminate Hc|contradiction]]).
    destruct (install_loop digest request write_ok m dir (b :: bs) (n0 :: ns) k) as [[ev1 k1] out1] eqn:Ei.
    injection H as <- <- <-.
    destruct (install_loop_writes _ _ _ _ _ _ _ _ Ei) as [Hw Hr].
    split.
    + intros rel data Hin. apply in_app_or in Hin as [Hin|Hin]; [destruct (Hmk _ _ Hin)|].
      exact (Hw _ _ Hin).
    + intros Hout _ _ name Hn. destruct (Hr Hout name Hn) as [d Hd].
      exists d. apply in_or_app. right. exact Hd.
Qed.

End Install.

(** X19: every file [ensureDictInstalled] writes is a manifest file that
    needed installing, written to its path in the dict directory, with
    data whose SHA-256 and size match the manifest entry. *)
Theorem ensureDictInstalled_writes_verified digest request write_ok (m : JVal) cfg id de mk read k
  ev k' out rel data :
  ensureDictInstalled digest request write_ok m cfg id de mk read k = (ev, k', out) ->
  In (EvWrite rel data) ev ->
  exists name want, In name (names m)
    /\ needs_install digest read m (dict_dir cfg id) name = true
    /\ rel = rel_path (dict_dir cfg id) name
    /\ prop m name = Some want
    /\ sha_ok digest data want = true /\ size_ok data want = true.
Proof.
  intros H Hin. destruct (ensure_writes _ _ _ _ _ _ _ _ _ _ _ _ _ H) as [Hw _].
  destruct (Hw _ _ Hin) as [name [want [Hn [Hr [Hp [_ [Hs Hz]]]]]]].
  apply filter_In in Hn as [Hn Hneed].
  exists name, want. repeat split; assumption.
Qed.

(** X20: when [ensureDictInstalled] returns normally for a valid manifest
    that has download sources, every file of the manifest is present and
    valid after its writes. *)
Theorem ensureDictInstalled_returned_all_valid digest request write_ok (m : JVal) cfg id de mk read k
  ev k' :
  ensureDictInstalled digest request write_ok m cfg id de mk read k = (ev, k', Returned) ->
  isValidManifest m = true -> bases_of m <> Some [] ->
  forall name, In name (names m) ->
  needs_install digest (after_writes read ev) m (dict_dir cfg id) name = false.
Proof.
  intros H Hv Hb name Hn. set (dir := dict_dir cfg id) in *.
  destruct (ensure_writes _ _ _ _ _ _ _ _ _ _ _ _ _ H) as [Hw Hr].
  fold dir in Hw, Hr.
  destruct (needs_install digest read m dir name) eqn:Eneed.
  - assert (Hf : In name (filter (needs_install digest read m dir) (names m)))
      by (apply filter_In; split; assumption).
    destruct (Hr eq_refl Hv Hb name Hf) as [d0 Hd0].
    destruct (after_writes_cases read ev (rel_path dir name)) as [[Hno _]|[d [Hd Ha]]];
      [destruct (Hno _ Hd0)|].
    destruct (Hw _ _ Hd) as [n' [want [_ [He [Hp [Hnn [Hs Hz]]]]]]].
    apply rel_path_inj in He. subst n'.
    unfold needs_install. rewrite Ha, Hp.
    destruct want; try (rewrite Hs, Hz; reflexivity). contradiction.
  - destruct (after_writes_cases read ev (rel_path dir name)) as [[_ Ha]|[d [Hd _]]].
    + unfold needs_install in *. rewrite Ha. exact Eneed.
    + destruct (Hw _ _ Hd) as [n' [want [Hn' [He _]]]].
      apply rel_path_inj in He. subst n'.
      apply filter_In in Hn' as [_ Hc]. rewrite Hc in Eneed. discriminate.
Qed.

Lemma get_field_exists (fs : list (string * JVal)) (k : string) :
  In k (map fst fs) -> exists v, get_field fs k = Some v /\ In (k, v) fs.
Proof.
  induction fs as [|[k' v'] fs IH]; simpl; [intros []|].
  intros H. destruct (String.eqb_spec k k') as [<-|Hne].
  - exists v'. split; [reflexivity|left; reflexivity].
  - destruct H as [H|H]; [congruence|]. destruct (IH H) as [v [Hg Hi]].
    exists v. split; [exact Hg|right; exact Hi].
Qed.

Lemma filter_all_false {A : Type} (f : A -> bool) (l : list A) :
  (forall x, In x l -> f x = false) -> filter f l = [].
Proof.
  induction l as [|x l IH]; simpl; intro H; [reflexivity|].
  rewrite (H x (or_introl eq_refl)). apply IH. intros y Hy. apply H. right. exact Hy.
Qed.

Lemma manifest_entry_valid digest (buf : ArrayBuffer) :
  size_ok buf (manifest_entry digest buf) = true /\ sha_ok digest buf (manifest_entry digest buf) = true.
Proof.
  split.
  - unfold size_ok, manifest_entry, prop. simpl. apply Z.eqb_refl.
  - unfold sha_ok, manifest_entry, prop, sha256Hex. simpl.
    rewrite sha256Hex_of_hex. apply String.eqb_refl.
Qed.

(** X21: a manifest written by the generator without [_overrides] is valid,
    and once its files are in the dict directory [ensureDictInstalled] does
    nothing. *)
Theorem generated_manifest_round_trip digest request write_ok base existing files m cfg id mk read k :
  make_manifest digest base existing files = Some m ->
  loadExistingOverrides existing = None ->
  (forall name buf, In (name, buf) files -> read (rel_path (dict_dir cfg id) name) = Some buf) ->
  isValidManifest m = true
  /\ ensureDictInstalled digest request write_ok m cfg id (Some true) mk read k = ([], k, Returned).
Proof.
  intros Hm Ho Hread. unfold make_manifest in Hm. rewrite Ho in Hm.
  destruct files as [|f0 fs]; [discriminate|]. injection Hm as Em0.
  set (files := f0 :: fs) in *.
  assert (Em : JObj (("sources"%string, JArr [JStr base])
                     :: map (fun '(name, buf) => (name, manifest_entry digest buf)) files) = m)
    by (rewrite <- Em0; reflexivity).
  clear Em0.
  assert (Hv : isValidManifest m = true).
  { rewrite <- Em. unfold isValidManifest. cbn [entries js_truthy js_typeof_object app forallb].
    simpl (String.eqb "sources" "sources"). cbn [orb andb].
    apply forallb_forall. intros [n v] Hin. apply in_map_iff in Hin as [[n' b] [Hnv _]].
    injection Hnv as <- <-. unfold manifest_entry, prop. simpl.
    apply orb_true_r. }
  split; [exact Hv|].
  unfold ensureDictInstalled. rewrite Hv. cbn [negb orb].
  rewrite (filter_all_false (needs_install digest read m (dict_dir cfg id))); [reflexivity|].
  intros name Hn. apply names_in in Hn as [Hk Hne].
  unfold needs_install. rewrite <- Em in Hk |- *.
  cbn [entries map fst app] in Hk. destruct Hk as [Hk|Hk]; [congruence|].
  assert (Hk' : In name (map fst (map (fun '(name, buf) => (name, manifest_entry digest buf)) files)))
    by exact Hk.
  destruct (get_field_exists _ _ Hk') as [v [Hg Hi]].
  apply in_map_iff in Hi as [[n' b] [Hnv Hin]]. injection Hnv as E1 E2. subst n'. subst v.
  rewrite (Hread _ _ Hin).
  unfold prop. cbn [entries app get_field].
  destruct (String.eqb_spec name "sources"%string) as [E|_]; [contradiction|].
  rewrite Hg. destruct (manifest_entry_valid digest b) as [Hz Hs].
  assert (Hw : exists fs, manifest_entry digest b = JObj fs) by (eexists; reflexivity).
  destruct Hw as [fs' Hw]. rewrite Hw in *. rewrite Hz, Hs. reflexivity.
Qed.

(** X22: when the generator copies an [_overrides] object that lacks a
    string [sha256] and a number [bytes], the manifest is invalid and
    [ensureDictInstalled] returns without doing anything. *)
Theorem generated_overrides_disable_installer digest request write_ok base existing files m o
  cfg id de mk read k :
  make_manifest digest base existing files = Some m ->
  loadExistingOverrides existing = Some o -> js_truthy o = true ->
  is_js_string (prop o "sha256"%string) && is_js_number (prop o "bytes"%string) = false ->
  isValidManifest m = false
  /\ ensureDictInstalled digest request write_ok m cfg id de mk read k = ([], k, Returned).
Proof.
  intros Hm Ho Ht Hshape.
  assert (Hobj : js_typeof_object o = true).
  { unfold loadExistingOverrides in Ho. destruct existing as [j|]; [|discriminate].
    destruct (prop j "_overrides"%string) as [o'|]; [|discriminate].
    destruct (js_typeof_object o') eqn:E; [|discriminate]. injection Ho as <-. exact E. }
  unfold make_manifest in Hm. rewrite Ho, Ht in Hm.
  destruct files as [|f0 fs]; [discriminate|]. injection Hm as Em.
  assert (Hv : isValidManifest m = false).
  { rewrite <- Em. unfold isValidManifest. cbn [entries js_truthy js_typeof_object app forallb].
    rewrite Ht, Hobj, Hshape. reflexivity. }
  split; [exact Hv|]. unfold ensureDictInstalled. rewrite Hv. reflexivity.
Qed.

Lemma inline_range_delimiters_witness :
  let s := [BACKTICK; 97; BACKTICK] in
  In (0%nat, 3%nat) (inlineBacktickRanges s) /\
  let n := tick_run s 0 in
  (1 <= n)%nat /\ (0%nat = 0%nat \/ is_tick s (0 - 1) = false)
  /\ exists c, 3%nat = (c + n)%nat /\ (0 + n <= c)%nat
     /\ tick_run s c = n /\ is_tick s (c - 1) = false
     /\ (forall c', (0 + n <= c' < c)%nat -> is_tick s c' = true -> is_tick s (c' - 1) = false ->
           tick_run s c' <> n).
Proof.
  intro s. assert (H : In (0%nat, 3%nat) (inlineBacktickRanges s)) by (vm_compute; left; reflexivity).
  split; [exact H|]. exact (inline_range_delimiters s 0 3 H).
Defined.

Lemma decorations_within_line_outside_code_witness :
  In (3, 6, [c_ka; c_n; c_zi]) (buildDecorations lone_tick_view Curly)
  /\ exists n text, nth_error (doc_lines lone_tick_view) (n - 1) = Some text
    /\ line_from (doc_lines lone_tick_view) n <= 3 < 6
    /\ 6 <= line_from (doc_lines lone_tick_view) n + zlen text
    /\ forall a b, In (a, b) (inlineBacktickRanges text) ->
         overlaps 3 6 (line_from (doc_lines lone_tick_view) n + Z.of_nat a)
                      (line_from (doc_lines lone_tick_view) n + Z.of_nat b) = false.
Proof.
  assert (H : In (3, 6, [c_ka; c_n; c_zi]) (buildDecorations lone_tick_view Curly))
    by (vm_compute; left; reflexivity).
  split; [exact H|]. exact (decorations_within_line_outside_code lone_tick_view Curly 3 6 _ H).
Defined.

Lemma decorations_replace_their_text_witness :
  In (3, 6, [c_ka; c_n; c_zi]) (buildDecorations lone_tick_view Curly)
  /\ 0 <= 3 < 6
  /\ firstn (Z.to_nat (6 - 3)) (skipn (Z.to_nat 3) (doc_string (doc_lines lone_tick_view)))
     = [c_ka; c_n; c_zi].
Proof.
  assert (H : In (3, 6, [c_ka; c_n; c_zi]) (buildDecorations lone_tick_view Curly))
    by (vm_compute; left; reflexivity).
  split; [exact H|]. exact (decorations_replace_their_text lone_tick_view Curly 3 6 _ H).
Defined.

Lemma info_string_block_inverts_fence_state_witness :
  let L := ([] ++ (repeat BACKTICK 3 ++ 116 :: [115]) :: [kanji_line] ++ fence_line :: [])%list in
  (forall i, (i <= 2)%nat -> fence_before L (0 + i) = fence_before [] 0)
  /\ fence_before L (0 + 3) = negb (fence_before [] 0).
Proof.
  exact (info_string_block_inverts_fence_state [] [kanji_line] [] BACKTICK 3 116 [115] fence_line
           (or_introl eq_refl) ltac:(lia) ltac:(discriminate) eq_refl
           ltac:(vm_compute; repeat constructor) eq_refl).
Defined.

Lemma editorViewToPath_last_host_witness :
  editorViewToPath ([{| leaf_cm := Some 1%nat; leaf_path := Some "a.md"%string |}]
                    ++ {| leaf_cm := Some 2%nat; leaf_path := Some "b.md"%string |}
                    :: [{| leaf_cm := Some 3%nat; leaf_path := Some "c.md"%string |};
                        {| leaf_cm := None; leaf_path := None |}]) 2%nat
  = Some "b.md"%string.
Proof.
  apply (editorViewToPath_last_host _ _ {| leaf_cm := Some 2%nat; leaf_path := Some "b.md"%string |}).
  - reflexivity.
  - repeat constructor; simpl; discriminate.
Defined.

Lemma collect_complete_witness :
  map snd (collectTextNodes ["div"%string] (NElem "p" [NText kanji_line; NText []]))
  = filter trim_nonempty (all_texts (NElem "p" [NText kanji_line; NText []])).
Proof. apply collect_complete; vm_compute; reflexivity. Defined.

Lemma sha256Hex_injective_witness :
  sha256Hex_of [Byte.x41; Byte.x0a] = "410a"%string /\ [Byte.x41; Byte.x0a] = [Byte.x41; Byte.x0a].
Proof.
  split; [vm_compute; reflexivity|].
  apply sha256Hex_injective. vm_compute. reflexivity.
Defined.

Lemma fetchWithFallback_first_success_witness :
  fetchWithFallback flaky_request "base.dat.gz" mirror_bases 0 = (mirror_log, 5%nat, inr dict_bytes)
  /\ let sched := schedule "base.dat.gz" mirror_bases in
     let n := (5 - 0)%nat in
     (0 <= 5)%nat /\ gets mirror_log = firstn n sched
     /\ (0 < n)%nat /\ flaky_request (0 + n - 1)%nat (nth (n - 1) sched EmptyString) = Some dict_bytes
     /\ (forall i, (S i < n)%nat -> flaky_request (0 + i)%nat (nth i sched EmptyString) = None).
Proof.
  assert (E : fetchWithFallback flaky_request "base.dat.gz" mirror_bases 0
              = (mirror_log, 5%nat, inr dict_bytes)) by (vm_compute; reflexivity).
  split; [exact E|]. exact (fetchWithFallback_first_success _ _ _ _ _ _ _ E).
Defined.

Lemma fetchWithFallback_backoff_witness :
  fetchWithFallback flaky_request "base.dat.gz" mirror_bases 0 = (mirror_log, 5%nat, inr dict_bytes)
  /\ (exists rest, full_events "base.dat.gz" mirror_bases = mirror_log ++ rest)
  /\ (mirror_log = [] \/ exists ev0 u, mirror_log = ev0 ++ [EvGet u])
  /\ (forall b, full_events "base.dat.gz" [b]
                = [EvGet (join_url b "base.dat.gz"); EvSleep 800; EvGet (join_url b "base.dat.gz");
                   EvSleep 1600; EvGet (join_url b "base.dat.gz")]).
Proof.
  assert (E : fetchWithFallback flaky_request "base.dat.gz" mirror_bases 0
              = (mirror_log, 5%nat, inr dict_bytes)) by (vm_compute; reflexivity).
  split; [exact E|]. exact (fetchWithFallback_backoff _ _ _ _ _ _ _ E).
Defined.

Lemma ensureDictInstalled_writes_verified_witness :
  ensureDictInstalled id_digest ok_request always_write one_file_manifest None "auto-furigana"
    (Some false) true no_files 0 = (install_log, 1%nat, Returned)
  /\ In (EvWrite (rel_path plugin_dict_dir "base.dat.gz") dict_bytes) install_log
  /\ exists name want, In name (names one_file_manifest)
     /\ needs_install id_digest no_files one_file_manifest (dict_dir None "auto-furigana") name = true
     /\ rel_path plugin_dict_dir "base.dat.gz" = rel_path (dict_dir None "auto-furigana") name
     /\ prop one_file_manifest name = Some want
     /\ sha_ok id_digest dict_bytes want = true /\ size_ok dict_bytes want = true.
Proof.
  assert (E : ensureDictInstalled id_digest ok_request always_write one_file_manifest None
                "auto-furigana" (Some false) true no_files 0 = (install_log, 1%nat, Returned))
    by (vm_compute; reflexivity).
  assert (Hin : In (EvWrite (rel_path plugin_dict_dir "base.dat.gz") dict_bytes) install_log)
    by (right; right; left; reflexivity).
  split; [exact E|]. split; [exact Hin|].
  exact (ensureDictInstalled_writes_verified _ _ _ _ _ _ _ _ _ _ _ _ _ _ _ E Hin).
Defined.

Lemma ensureDictInstalled_returned_all_valid_witness :
  ensureDictInstalled id_digest ok_request always_write one_file_manifest None "auto-furigana"
    (Some false) true no_files 0 = (install_log, 1%nat, Returned)
  /\ isValidManifest one_file_manifest = true /\ bases_of one_file_manifest <> Some []
  /\ forall name, In name (names one_file_manifest) ->
     needs_install id_digest (after_writes no_files install_log) one_file_manifest
       (dict_dir None "auto-furigana") name = false.
Proof.
  assert (E : ensureDictInstalled id_digest ok_request always_write one_file_manifest None
                "auto-furigana" (Some false) true no_files 0 = (install_log, 1%nat, Returned))
    by (vm_compute; reflexivity).
  assert (Hv : isValidManifest one_file_manifest = true) by (vm_compute; reflexivity).
  assert (Hb : bases_of one_file_manifest <> Some []) by (vm_compute; discriminate).
  split; [exact E|]. split; [exact Hv|]. split; [exact Hb|].
  exact (ensureDictInstalled_returned_all_valid _ _ _ _ _ _ _ _ _ _ _ _ E Hv Hb).
Defined.

Lemma generated_manifest_round_trip_witness :
  make_manifest id_digest "https://a.example" None [("base.dat.gz"%string, dict_bytes)]
  = Some (JObj [("sources"%string, JArr [JStr "https://a.example"]);
                ("base.dat.gz"%string, manifest_entry id_digest dict_bytes)])
  /\ isValidManifest (JObj [("sources"%string, JArr [JStr "https://a.example"]);
                            ("base.dat.gz"%string, manifest_entry id_digest dict_bytes)]) = true
  /\ ensureDictInstalled id_digest ok_request always_write
       (JObj [("sources"%string, JArr [JStr "https://a.example"]);
              ("base.dat.gz"%string, manifest_entry id_digest dict_bytes)])
       None "auto-furigana" (Some true) true installed_files 0 = ([], 0%nat, Returned).
Proof.
  assert (E : make_manifest id_digest "https://a.example" None [("base.dat.gz"%string, dict_bytes)]
              = Some (JObj [("sources"%string, JArr [JStr "https://a.example"]);
                            ("base.dat.gz"%string, manifest_entry id_digest dict_bytes)]))
    by reflexivity.
  split; [exact E|].
  apply (generated_manifest_round_trip id_digest ok_request always_write "https://a.example" None
           [("base.dat.gz"%string, dict_bytes)] _ None "auto-furigana" true installed_files 0 E eq_refl).
  intros name buf [H|[]]. injection H as <- <-. vm_compute. reflexivity.
Defined.

Lemma generated_overrides_disable_installer_witness :
  make_manifest id_digest "https://a.example" previous_manifest [("base.dat.gz"%string, dict_bytes)]
  = Some (JObj [("sources"%string, JArr [JStr "https://a.example"]);
                ("_overrides"%string, JObj []);
                ("base.dat.gz"%string, manifest_entry id_digest dict_bytes)])
  /\ isValidManifest (JObj [("sources"%string, JArr [JStr "https://a.example"]);
                            ("_overrides"%string, JObj []);
                            ("base.dat.gz"%string, manifest_entry id_digest dict_bytes)]) = false
  /\ ensureDictInstalled id_digest ok_request always_write
       (JObj [("sources"%string, JArr [JStr "https://a.example"]);
              ("_overrides"%string, JObj []);
              ("base.dat.gz"%string, manifest_entry id_digest dict_bytes)])
       None "auto-furigana" (Some false) true no_files 0 = ([], 0%nat, Returned).
Proof.
  assert (E : make_manifest id_digest "https://a.example" previous_manifest
                [("base.dat.gz"%string, dict_bytes)]
              = Some (JObj [("sources"%string, JArr [JStr "https://a.example"]);
                            ("_overrides"%string, JObj []);
                            ("base.dat.gz"%string, manifest_entry id_digest dict_bytes)]))
    by reflexivity.
  split; [exact E|].
  exact (generated_overrides_disable_installer id_digest ok_request always_write "https://a.example"
           previous_manifest _ _ (JObj []) None "auto-furigana" (Some false) true no_files 0
           E eq_refl eq_refl eq_refl).
Defined.

(** X23: the Live Preview plugin shows a decoration exactly when the rebuild
    does not throw, the decoration is a candidate match, and its span
    overlaps no buffer zone [[p - w, p + w)] around a selection endpoint
    [p], where [w] is 2 while composing and 1 otherwise. *)
Theorem live_decorations_caret_safe (view : EditorView) (style : NotationStyle) (d : Deco) :
  In d (live_decorations view style)
  <-> decorationSet view style <> None
      /\ In d (decoration_candidates view style)
      /\ (forall r, In r (ranges view) -> forall p, p = anchor r \/ p = head r ->
            let w := if composing view then 2 else 1 in
            overlaps (fst (fst d)) (snd (fst d)) (p - w) (p + w) = false).
Proof.
  rewrite <- buildDecorations_zone_filter. unfold live_decorations, decorationSet.
  destruct (builder_run [] (buildDecorations view style)); split.
  - intro H. split; [discriminate|exact H].
  - intros [_ H]. exact H.
  - intros [].
  - intros [H _]. contradiction H. reflexivity.
Qed.

(** X24: when the scan of [inlineBacktickRanges] reaches a backtick [a]
    (one lying in no range it finds) whose run has no later run of exactly
    its length, it stops there: every range it finds ends at or before [a],
    so [a] and the rest of the line are not excluded. *)
Theorem unterminated_opener_stops_scan (s : jstr) (a : nat) :
  is_tick s a = true ->
  (forall x y, In (x, y) (inlineBacktickRanges s) -> ~ (x <= a < y)%nat) ->
  (forall c, (a + tick_run s a <= c)%nat -> is_tick s c = true -> is_tick s (c - 1) = false ->
             tick_run s c <> tick_run s a) ->
  forall x y, In (x, y) (inlineBacktickRanges s) -> (y <= a)%nat.
Proof.
  intros Ht Hout Hno.
  assert (Hn : find_close (List.length s) s (tick_run s a) (a + tick_run s a) = None).
  { destruct (find_close (List.length s) s (tick_run s a) (a + tick_run s a)) as [c|] eqn:E;
      [|reflexivity].
    apply find_close_sound in E as [Hle [Ht' [Hp Hr]]].
    - exfalso. exact (Hno c Hle Ht' Hp Hr).
    - rewrite tick_run_end. discriminate. }
  exact (scan_ticks_stops s a Ht Hn _ 0 (Nat.le_0_l a) Hout).
Qed.

Lemma unterminated_opener_stops_scan_witness :
  inlineBacktickRanges closed_then_lone_line = [(0, 3)%nat]
  /\ forall x y, In (x, y) (inlineBacktickRanges closed_then_lone_line) -> (y <= 4)%nat.
Proof.
  split; [vm_compute; reflexivity|].
  apply (unterminated_opener_stops_scan closed_then_lone_line 4).
  - vm_compute. reflexivity.
  - intros x y H. vm_compute in H. destruct H as [E|[]]. injection E as <- <-. lia.
  - intros c Hc Ht. unfold is_tick in Ht.
    destruct (nth_error closed_then_lone_line c) as [z|] eqn:E; [|discriminate].
    assert (Hlt : (c < List.length closed_then_lone_line)%nat)
      by (apply nth_error_Some; congruence).
    vm_compute in Hc, Hlt.
    destruct c as [|[|[|[|[|[|c]]]]]]; try lia.
    vm_compute in E. injection E as <-. discriminate.
Defined.

